(** * Word Hunt solver: a shallow embedding of [solver/wordhunt_cpp.cpp]

    The development follows the C++ source function by function, states
    the properties of its specification and proves them.

    - C++ [int], [uint16_t], [uint32_t] and [long long] values are integers
      of [Z] whose wrap-around is written out ([to_int], [to_uint16], ...);
      this is also what signed overflow, undefined in C++, is taken to be.
    - A [char] is an [ascii]; [char_val] is its value as a (signed) [char]
      promoted to [int], [uchar_val] its value as an [unsigned char].
    - A [std::string] is a [list ascii]; [push_back] appends at the end.
    - A [std::vector] or [std::array] is a list; an access out of range is
      undefined behaviour in C++ and is the outcome [Undefined] here.
    - [std::unordered_set<std::string>] is a [gset]; its iteration order
      is the one of [elements], and [std::sort] is a merge sort: the
      sorted result depends on neither ([before_sorted_unique]).
    - Exceptions are the outcome [Throw]; the recursion of [dfs_all_words]
      is driven by a fuel argument, and running out of it is [OutOfFuel].
    - [<cctype>] is read in the "C" locale (the classification of single
      bytes is the same in every UTF-8 locale).
    - [std::mt19937] and [std::discrete_distribution] are parameters of
      the board generator. *)

From stdpp Require Import base list gmap sets sorting strings.
From Stdlib Require Import ZArith Ascii Lia.
From Stdlib Require String.

Set Warnings "-register-all".
Local Open Scope Z_scope.

(** ** Machine integers *)

Definition wrap_signed (w x : Z) : Z := (x + 2 ^ (w - 1)) mod 2 ^ w - 2 ^ (w - 1).
Definition to_int (x : Z) : Z := wrap_signed 32 x.
Definition to_llong (x : Z) : Z := wrap_signed 64 x.
Definition to_uint16 (x : Z) : Z := x mod 2 ^ 16.
Definition to_uint32 (x : Z) : Z := x mod 2 ^ 32.

Definition INT_MAX : Z := 2 ^ 31 - 1.
Definition INT_MIN : Z := - 2 ^ 31.

(** ** Characters and strings *)

Abbreviation str := (list ascii).

Definition uchar_val (c : ascii) : Z := Z.of_N (N_of_ascii c).
Definition char_val (c : ascii) : Z :=
  if uchar_val c <? 128 then uchar_val c else uchar_val c - 256.
Definition char_of (n : Z) : ascii := ascii_of_N (Z.to_N (n mod 256)).

Definition isalpha (c : ascii) : bool :=
  let n := uchar_val c in
  ((65 <=? n) && (n <=? 90)) || ((97 <=? n) && (n <=? 122)).
Definition isspace (c : ascii) : bool :=
  let n := uchar_val c in
  (n =? 32) || ((9 <=? n) && (n <=? 13)).
Definition tolower (c : ascii) : ascii :=
  let n := uchar_val c in
  if (65 <=? n) && (n <=? 90) then char_of (n + 32) else c.

(** [v.size()] *)
Definition sizeZ {A} (l : list A) : Z := Z.of_nat (length l).

(** ** Outcomes of a computation *)

Inductive exn : Type :=
  | runtime_error (msg : String.string)
  | cast_error.

Inductive res (A : Type) : Type :=
  | Ret (a : A)
  | Throw (e : exn)
  | Undefined
  | OutOfFuel.
Arguments Ret {A} a.
Arguments Throw {A} e.
Arguments Undefined {A}.
Arguments OutOfFuel {A}.

Global Instance res_ret : MRet res := @Ret.
Global Instance res_bind : MBind res := fun A B f m =>
  match m with
  | Ret a => f a
  | Throw e => Throw e
  | Undefined => Undefined
  | OutOfFuel => OutOfFuel
  end.

(** [v[i]] for a vector or an array indexed by an [int]. *)
Definition vec_at {A} (v : list A) (i : Z) : res A :=
  if i <? 0 then Undefined
  else match v !! Z.to_nat i with Some x => Ret x | None => Undefined end.

(** [for (x : l) body], threading the state the body mutates. *)
Fixpoint for_each {A S} (l : list A) (body : A → S → res S) (s : S) : res S :=
  match l with
  | [] => Ret s
  | x :: l' => s' ← body x s; for_each l' body s'
  end.

(** ** [word_score] *)

Definition word_score (len : Z) : Z :=
  if len <? 3 then 0
  else if len =? 3 then 100
  else if len =? 4 then 400
  else if len =? 5 then 800
  else if len =? 6 then 1400
  else if len =? 7 then 1800
  else to_int (2200 + to_int (400 * to_int (len - 8))).

(** ** [struct Trie] *)

Module Trie.

Record Node : Type := mkNode { next : list Z; terminal : bool }.

(** [Node()]: the 26 slots are filled with [-1]. *)
Definition Node_new : Node := mkNode (replicate 26 (-1)) false.

Record Trie : Type := mkTrie { t : list Node }.

(** [Trie() { t.emplace_back(); }] *)
Definition new : Trie := mkTrie [Node_new].

Definition set_next (nd : Node) (k v : Z) : Node :=
    mkNode (<[Z.to_nat k := v]> (next nd)) (terminal nd).
Definition set_terminal (nd : Node) : Node := mkNode (next nd) true.

(** The body of [insert]'s loop from node [v] on, then the final
    [t[v].terminal = true]. *)
Fixpoint insert_from (tv : list Node) (v : Z) (w : str) : res (list Node) :=
    match w with
    | [] =>
        nd ← vec_at tv v;
        Ret (<[Z.to_nat v := set_terminal nd]> tv)
    | c :: w' =>
        let k := char_val c - 97 in
        nd ← vec_at tv v;
        e ← vec_at (next nd) k;
        let tv1 :=
          if e =? -1
          then <[Z.to_nat v := set_next nd k (to_int (sizeZ tv))]> tv ++ [Node_new]
          else tv in
        nd1 ← vec_at tv1 v;
        v1 ← vec_at (next nd1) k;
        insert_from tv1 v1 w'
    end.

Definition insert (tr : Trie) (w : str) : res Trie :=
    tv ← insert_from (t tr) 0 w; Ret (mkTrie tv).

End Trie.

(** ** [build_neighbors_4x4] *)

Definition idx (r c : Z) : Z := r * 4 + c.

Definition push_back_at (nbr : list (list Z)) (v x : Z) : list (list Z) :=
  alter (λ l, l ++ [x]) (Z.to_nat v) nbr.

Definition build_neighbors_4x4 : list (list Z) :=
  foldl (λ nbr r,
    foldl (λ nbr c,
      let v := idx r c in
      foldl (λ nbr dr,
        foldl (λ nbr dc,
          if (dr =? 0) && (dc =? 0) then nbr
          else
            let nr := r + dr in
            let nc := c + dc in
            if (0 <=? nr) && (nr <? 4) && (0 <=? nc) && (nc <? 4)
            then push_back_at nbr v (idx nr nc)
            else nbr)
          nbr (seqZ (-1) 3))
        nbr (seqZ (-1) 3))
      nbr (seqZ 0 4))
    (replicate 16 []) (seqZ 0 4).

(** ** [dfs_all_words] *)

(** [cur.pop_back()] *)
Definition pop_back (s : str) : res str :=
  match s with [] => Undefined | _ => Ret (removelast s) end.

(** The state shared through references: [cur] and [outWords]. *)
Abbreviation dfs_state := (str * gset str)%type.

Fixpoint dfs_all_words (fuel : nat) (cell usedMask trieNode : Z)
    (board : list ascii) (nbr : list (list Z)) (trie : Trie.Trie)
    (st : dfs_state) : res dfs_state :=
  match fuel with
  | O => OutOfFuel
  | S fuel' =>
      let '(cur, outWords) := st in
      ch ← vec_at board cell;
      let k := char_val ch - 97 in
      if (k <? 0) || (26 <=? k) then Ret (cur, outWords) else
      nd ← vec_at (Trie.t trie) trieNode;
      nxt ← vec_at (Trie.next nd) k;
      if nxt =? -1 then Ret (cur, outWords) else
      let usedMask := to_uint16 (Z.lor usedMask (to_uint16 (to_uint32 (Z.shiftl 1 cell)))) in
      let cur := cur ++ [ch] in
      nd' ← vec_at (Trie.t trie) nxt;
      let outWords :=
        if Trie.terminal nd' && (3 <=? sizeZ cur) then {[cur]} ∪ outWords else outWords in
      row ← vec_at nbr cell;
      '(cur, outWords) ←
        for_each row (λ to st,
          if (to <? 0) || (32 <=? to) then Undefined
          else if negb (Z.land (Z.shiftr usedMask to) 1 =? 0) then Ret st
          else dfs_all_words fuel' to usedMask nxt board nbr trie st)
          (cur, outWords);
      cur ← pop_back cur;
      Ret (cur, outWords)
  end.

(** ** [parse_board_any] *)

(** The Python objects a caller can pass: a [str] (its UTF-8 bytes), a
    list or tuple, anything else. *)
Inductive py_object : Type :=
  | PyStr (s : str)
  | PySeq (items : list py_object)
  | PyOther.

(** [py::cast<std::string>] *)
Definition cast_string (o : py_object) : res str :=
  match o with PyStr s => Ret s | _ => Throw cast_error end.

(** The letters of [s], lowercased, appended to [t]. *)
Definition append_letters (t s : str) : str :=
  foldl (λ t c, if isalpha c then t ++ [tolower c] else t) t s.

Definition is_PyStr (o : py_object) : bool :=
  match o with PyStr _ => true | _ => false end.

Definition parse_board_any (board_obj : py_object) : res (list ascii) :=
  match board_obj with
  | PyStr s =>
      let t := append_letters [] s in
      if negb (sizeZ t =? 16)
      then Throw (runtime_error "board string must contain 16 letters"%string)
      else Ret (take 16 t)
  | PySeq seq =>
      if (sizeZ seq =? 4) && from_option is_PyStr false (seq !! 0%nat) then
        t ← for_each (take 4 seq) (λ o t, row ← cast_string o; Ret (append_letters t row)) [];
        if negb (sizeZ t =? 16)
        then Throw (runtime_error "4 rows must contain 16 letters total"%string)
        else Ret (take 16 t)
      else if sizeZ seq =? 16 then
        for_each seq (λ o b,
          cell ← cast_string o;
          match cell with
          | [c] =>
              if isalpha c then Ret (b ++ [tolower c])
              else Throw (runtime_error "board list must contain 16 single letters"%string)
          | _ => Throw (runtime_error "board list must contain 16 single letters"%string)
          end) []
      else Throw (runtime_error
        "board must be a 16-letter string, 4x4 list of strings, or list of 16 letters"%string)
  | PyOther => Throw (runtime_error
        "board must be a 16-letter string, 4x4 list of strings, or list of 16 letters"%string)
  end.

(** ** [random_letter] and [generate_board_py]

    [std::mt19937] and [std::discrete_distribution<int>] belong to the C++
    standard library.  They are taken as parameters: an engine state with
    its seeding constructor, and the distribution object with its call
    operator, which receives the object and the engine and returns the
    sample with both updated.  The distribution object of [random_letter]
    is [static thread_local]: it is built on the first call in a thread and
    lives on between calls, so it is threaded through as an optional
    state. *)

(** The weights of [random_letter], in hundredths. *)
Definition freq : list Z :=
  [817; 149; 278; 425; 1270; 223; 202; 609; 697; 15; 77; 403;
   241; 675; 751; 193; 10; 599; 633; 906; 276; 98; 236; 15;
   197; 7].

Section BoardGenerator.
Variable mt19937 : Type.
Variable mt19937_seed : Z → mt19937.
Variable discrete_distribution : Type.
Variable dist_new : list Z → discrete_distribution.
Variable dist_call : discrete_distribution → mt19937 → Z * discrete_distribution * mt19937.

Definition random_letter (tl : option discrete_distribution) (rng : mt19937)
      : ascii * option discrete_distribution * mt19937 :=
    let dist := match tl with Some d => d | None => dist_new freq end in
    let '(v, dist, rng) := dist_call dist rng in
    (char_of (97 + v), Some dist, rng).

Fixpoint generate_loop (n : nat) (tl : option discrete_distribution)
      (rng : mt19937) (out : str) : str * option discrete_distribution :=
    match n with
    | O => (out, tl)
    | S n' =>
        let '(c, tl, rng) := random_letter tl rng in
        generate_loop n' tl rng (out ++ [c])
    end.

(** Returns the board and the thread's distribution object after the
    call. *)
Definition generate_board_py (seed : Z) (tl : option discrete_distribution)
      : str * option discrete_distribution :=
    let rng := mt19937_seed (to_uint32 seed) in
    generate_loop 16 tl rng [].
End BoardGenerator.

Arguments random_letter {mt19937 discrete_distribution} dist_new dist_call tl rng.
Arguments generate_loop {mt19937 discrete_distribution} dist_new dist_call n tl rng out.
Arguments generate_board_py {mt19937} mt19937_seed {discrete_distribution}
  dist_new dist_call seed tl.

(** ** [struct Dictionary] *)

(** [in >> w]: the whitespace-delimited tokens of a stream. *)
Fixpoint tokens_from (s : str) (w : str) : list str :=
  match s with
  | [] => match w with [] => [] | _ => [w] end
  | c :: s' =>
      if isspace c
      then match w with [] => tokens_from s' [] | _ => w :: tokens_from s' [] end
      else tokens_from s' (w ++ [c])
  end.
Definition tokens (s : str) : list str := tokens_from s [].

(** [std::string::operator<]: lexicographic on the bytes. *)
Fixpoint string_lt (a b : str) : bool :=
  match a, b with
  | _, [] => false
  | [], _ :: _ => true
  | x :: a', y :: b' =>
      if uchar_val x <? uchar_val y then true
      else if uchar_val y <? uchar_val x then false
      else string_lt a' b'
  end.

(** [std::sort(first, last, comp)] *)
Definition not_after {A} (comp : A → A → bool) (a b : A) : Prop := comp b a = false.
Global Instance not_after_dec {A} (comp : A → A → bool) a b : Decision (not_after comp a b).
Proof. unfold not_after. apply _. Defined.

Definition std_sort {A} (comp : A → A → bool) (l : list A) : list A :=
  merge_sort (not_after comp) l.

Module Dictionary.

Record Dictionary : Type := mkDictionary { trie : Trie.Trie; nbr : list (list Z) }.

(** The inner loop of the constructor: [(ok, s)] after reading [w]. *)
Fixpoint lower_word (w s : str) : bool * str :=
    match w with
    | [] => (true, s)
    | ch :: w' =>
        if negb (isalpha ch) then (false, s)
        else lower_word w' (s ++ [tolower ch])
    end.

Definition add_token (w : str) (tr : Trie.Trie) : res Trie.Trie :=
    let '(ok, s) := lower_word w [] in
    if ok && (3 <=? to_int (sizeZ s)) then Trie.insert tr s else Ret tr.

(** The constructor, over a file system that maps a path to the
    contents of the file, if it can be opened. *)
Definition new (fs : str → option str) (dict_path : str) : res Dictionary :=
    let nbr := build_neighbors_4x4 in
    match fs dict_path with
    | None =>
        Throw (runtime_error
          (String.append "Failed to open dictionary file: " (String.string_of_list_ascii dict_path)))
    | Some content =>
        tr ← for_each (tokens content) add_token Trie.new;
        Ret (mkDictionary tr nbr)
    end.

(** The comparator of [solve]. *)
Definition comp (a b : str) : bool :=
    if negb (sizeZ a =? sizeZ b) then sizeZ b <? sizeZ a
    else string_lt a b.

Definition solve (fuel : nat) (d : Dictionary) (board_obj : py_object)
      : res (list str * Z) :=
    board ← parse_board_any board_obj;
    '(cur, found) ←
      for_each (seqZ 0 16)
        (λ i st, dfs_all_words fuel i 0 0 board (nbr d) (trie d) st) ([], ∅);
    let words := std_sort comp (elements found) in
    let total := foldl (λ total w, to_llong (total + word_score (to_int (sizeZ w)))) 0 words in
    Ret (words, total).

End Dictionary.

(** ** Vocabulary of the specification *)

(** A string literal as a [std::string]. *)
Definition lit (s : String.string) : str := String.list_ascii_of_string s.

(** *** The trie as a set of words *)

(** The branch index of a letter [a]..[z]. *)
Definition letter_index (c : ascii) : option Z :=
  let k := char_val c - 97 in
  if (0 <=? k) && (k <? 26) then Some k else None.

Definition is_lower (c : ascii) : Prop := is_Some (letter_index c).

Definition node_at (tv : list Trie.Node) (v : Z) : option Trie.Node :=
  if v <? 0 then None else tv !! Z.to_nat v.

(** The traversal step [child(node, letter)]. *)
Definition child (tv : list Trie.Node) (v : Z) (c : ascii) : option Z :=
  k ← letter_index c;
  nd ← node_at tv v;
  e ← Trie.next nd !! Z.to_nat k;
  if e =? -1 then None else Some e.

Fixpoint walk (tv : list Trie.Node) (v : Z) (w : str) : option Z :=
  match w with
  | [] => Some v
  | c :: w' => v' ← child tv v c; walk tv v' w'
  end.

Definition is_terminal (tv : list Trie.Node) (v : Z) : bool :=
  from_option Trie.terminal false (node_at tv v).

(** [w] is present in the trie: the walk from the root along [w] ends in
    a terminal node. *)
Definition accepts (tv : list Trie.Node) (w : str) : bool :=
  from_option (is_terminal tv) false (walk tv 0 w).
Definition contains (tr : Trie.Trie) (w : str) : Prop := accepts (Trie.t tr) w = true.

(** Every child table has its 26 slots, each absent or the index of a node. *)
Definition wf_node (n : nat) (nd : Trie.Node) : Prop :=
  length (Trie.next nd) = 26%nat ∧
  Forall (λ e, e = -1 ∨ 0 <= e < Z.of_nat n) (Trie.next nd).
Definition wf_nodes (tv : list Trie.Node) : Prop :=
  (0 < length tv)%nat ∧ Forall (wf_node (length tv)) tv.
Definition wf_trie (tr : Trie.Trie) : Prop := wf_nodes (Trie.t tr).

(** No node is reached from the root along two different words. *)
Definition path_inj (tv : list Trie.Node) : Prop :=
  ∀ p q v, walk tv 0 p = Some v → walk tv 0 q = Some v → p = q.

(** *** The words of a dictionary source *)

(** The build policy in the words of the specification: every character
    alphabetic, lowercased, length at least 3. *)
Definition accepted (tok : str) : Prop :=
  Forall (λ c, isalpha c = true) tok ∧ (3 <= length tok)%nat.
Definition dictionary_word (content : str) (w : str) : Prop :=
  ∃ tok, tok ∈ tokens content ∧ accepted tok ∧ w = map tolower tok.

(** *** The grid *)

Definition cell_row (cell : Z) : Z := cell / 4.
Definition cell_col (cell : Z) : Z := cell mod 4.
Definition in_grid (cell : Z) : Prop := 0 <= cell < 16.

(** King-move adjacency: Chebyshev distance 1. *)
Definition king_adjacentb (a b : Z) : bool :=
  negb (a =? b)
  && (Z.abs (cell_row a - cell_row b) <=? 1)
  && (Z.abs (cell_col a - cell_col b) <=? 1).
Definition king_adjacent (a b : Z) : Prop := king_adjacentb a b = true.

Fixpoint chain {A} (R : A → A → Prop) (p : list A) : Prop :=
  match p with
  | a :: p' => match p' with b :: _ => R a b | [] => True end ∧ chain R p'
  | [] => True
  end.

(** A self-avoiding walk over king-move-adjacent cells. *)
Definition self_avoiding_walk (p : list Z) : Prop :=
  p ≠ [] ∧ Forall in_grid p ∧ NoDup p ∧ chain king_adjacent p.

(** The letters of the board along a path. *)
Definition spells (board : list ascii) (p : list Z) (w : str) : Prop :=
  Forall2 (λ cell ch, board !! Z.to_nat cell = Some ch) p w.

Definition spellable (board : list ascii) (w : str) : Prop :=
  ∃ p, self_avoiding_walk p ∧ spells board p w.

(** *** The visited mask *)

Definition visited (mask cell : Z) : bool := Z.testbit mask cell.
Definition mark (mask cell : Z) : Z :=
  to_uint16 (Z.lor mask (to_uint16 (to_uint32 (Z.shiftl 1 cell)))).
Definition free_cells (mask : Z) : list Z :=
  filter (λ c, visited mask c = false) (seqZ 0 16).

(** The nesting of calls of [dfs_all_words]: a call on [cell] with mask
    [mask] calls itself on [to] with mask [mask']. *)
Definition calls (nbr : list (list Z)) (c1 c2 : Z * Z) : Prop :=
  let '(cell, mask) := c1 in
  let '(to, mask') := c2 in
  in_grid cell ∧ mask' = mark mask cell ∧
  (∃ row, nbr !! Z.to_nat cell = Some row ∧ to ∈ row) ∧
  visited mask' to = false.

(** *** The order of the result *)

Inductive lex_lt : str → str → Prop :=
  | lex_lt_nil y b : lex_lt [] (y :: b)
  | lex_lt_head x a y b : uchar_val x < uchar_val y → lex_lt (x :: a) (y :: b)
  | lex_lt_tail x a b : lex_lt a b → lex_lt (x :: a) (x :: b).

(** Descending length, then ascending lexical order. *)
Definition before (a b : str) : Prop :=
  (length b < length a)%nat ∨ (length a = length b ∧ lex_lt a b).

Definition score_sum (words : list str) : Z :=
  foldr (λ w acc, word_score (Z.of_nat (length w)) + acc) 0 words.

(** ** An instance of the library parameters of the board generator

    The Mersenne Twister of [std::mt19937], and a sampler by inversion of
    the cumulative weights in exact arithmetic over a 64-bit draw. *)

Module MT.
Record state : Type := mkState { mt : list Z; index : nat }.

Definition seed_loop (seed : Z) : list Z :=
    foldl (λ mt i,
      let prev := default 0 (last mt) in
      mt ++ [to_uint32 (1812433253 * Z.lxor prev (Z.shiftr prev 30) + i)])
      [to_uint32 seed] (seqZ 1 623).

Definition seed (s : Z) : state := mkState (seed_loop s) 624.

Definition twist (mt : list Z) : list Z :=
    foldl (λ mt i,
      let at_ j := default 0 (mt !! (j `mod` 624)%nat) in
      let y := Z.lor (Z.land (at_ i) 2147483648) (Z.land (at_ (i + 1)%nat) 2147483647) in
      let mag := if Z.odd y then 2567483615 else 0 in
      <[i := Z.lxor (Z.lxor (at_ (i + 397)%nat) (Z.shiftr y 1)) mag]> mt)
      mt (seq 0 624).

Definition temper (y : Z) : Z :=
    let y := Z.lxor y (Z.shiftr y 11) in
    let y := Z.lxor y (Z.land (to_uint32 (Z.shiftl y 7)) 2636928640) in
    let y := Z.lxor y (Z.land (to_uint32 (Z.shiftl y 15)) 4022730752) in
    Z.lxor y (Z.shiftr y 18).

Definition draw (s : state) : Z * state :=
    let s := if (624 <=? index s)%nat then mkState (twist (mt s)) 0 else s in
    (temper (default 0 (mt s !! index s)), mkState (mt s) (S (index s))).
End MT.

Module Sampler.
(** The object keeps the cumulative weights. *)
Definition t : Type := list Z.
Definition new (weights : list Z) : t :=
    (foldl (λ '(acc, total) w, (acc ++ [total + w], total + w)) ([], 0) weights).1.

Definition call (d : t) (rng : MT.state) : Z * t * MT.state :=
    let '(lo, rng) := MT.draw rng in
    let '(hi, rng) := MT.draw rng in
    let u := lo + hi * 2 ^ 32 in
    let total := default 1 (last d) in
    let below := filter (λ c, c * 2 ^ 64 <=? u * total) d in
    (Z.min (sizeZ below) 25, d, rng).
End Sampler.

(** A small dictionary file and file system for the examples. *)
Definition example_file : str :=
  lit "cat cats" ++ [ascii_of_nat 10] ++ lit " x1 Dog at" ++ [ascii_of_nat 10].
Definition example_fs (path : str) : option str :=
  if decide (path = lit "words.txt") then Some example_file else None.

(** ** Definitions used by the proofs *)

(** The largest length whose score fits an [int]. *)
Definition score_max_len : Z := 5368711.

(** The vector after [insert] appended a new child of [v] for the letter
    of index [k]. *)
Definition grow (tv : list Trie.Node) (v : Z) (nd : Trie.Node) (k : Z) : list Trie.Node :=
  <[Z.to_nat v := Trie.set_next nd k (sizeZ tv)]> tv ++ [Trie.Node_new].

(** The vector after [insert] set the terminal flag of [v]. *)
Definition set_terminal_at (tv : list Trie.Node) (v : Z) (nd : Trie.Node) : list Trie.Node :=
  <[Z.to_nat v := Trie.set_terminal nd]> tv.

(** The number of characters of a list of tokens. *)
Definition letters (toks : list str) : Z := foldr (λ w n, sizeZ w + n) 0 toks.

(** An adjacency table of 16 rows of grid cells, of at most 8 cells each. *)
Definition nbr_ok (nbr : list (list Z)) : Prop :=
  length nbr = 16%nat ∧ Forall (Forall in_grid) nbr.
Definition rows_short (nbr : list (list Z)) : Prop :=
  Forall (λ row : list Z, (length row ≤ 8)%nat) nbr.

Global Instance in_grid_dec c : Decision (in_grid c).
Proof. unfold in_grid. apply _. Defined.

Global Instance accepted_dec tok : Decision (accepted tok).
Proof. unfold accepted. apply _. Defined.

(** The table of [build_neighbors_4x4] against king-move adjacency, cell
    by cell. *)
Definition adjacency_check : bool :=
  forallb (λ a, forallb (λ b,
    Bool.eqb (bool_decide (b ∈ default [] (build_neighbors_4x4 !! Z.to_nat a)))
             (king_adjacentb a b)) (seqZ 0 16)) (seqZ 0 16).

(** The body of the loop of [dfs_all_words] over the neighbours of a
    cell ([dfs_unfold] below). *)
Definition visit (fuel : nat) (board : list ascii) (nbr : list (list Z))
    (trie : Trie.Trie) (usedMask nxt to : Z) (st : dfs_state) : res dfs_state :=
  if (to <? 0) || (32 <=? to) then Undefined
  else if negb (Z.land (Z.shiftr usedMask to) 1 =? 0) then Ret st
  else dfs_all_words fuel to usedMask nxt board nbr trie st.

(** [trail mask cell node s e]: a call on [cell] with mask [mask] at trie
    node [node] can extend the path by the letters [s], reaching the trie
    node [e]. *)
Inductive trail (board : list ascii) (nbr : list (list Z)) (tv : list Trie.Node)
    : Z → Z → Z → str → Z → Prop :=
  | trail_last mask cell node ch nxt :
      in_grid cell → board !! Z.to_nat cell = Some ch →
      child tv node ch = Some nxt →
      trail board nbr tv mask cell node [ch] nxt
  | trail_step mask cell node ch nxt row to s e :
      in_grid cell → board !! Z.to_nat cell = Some ch →
      child tv node ch = Some nxt →
      nbr !! Z.to_nat cell = Some row → to ∈ row →
      visited (mark mask cell) to = false →
      trail board nbr tv (mark mask cell) to nxt s e →
      trail board nbr tv mask cell node (ch :: s) e.

(** The words a call adds to [outWords]: [cur] extended along a trail
    that ends in a terminal node, when of length at least 3. *)
Definition found_at (board : list ascii) (nbr : list (list Z)) (tv : list Trie.Node)
    (mask cell node : Z) (cur w : str) : Prop :=
  ∃ s e, w = cur ++ s ∧ trail board nbr tv mask cell node s e ∧
         is_terminal tv e = true ∧ (3 ≤ length w)%nat.

(** A bound on the number of calls of a search of depth [fuel], a cell
    having at most eight neighbours. *)
Fixpoint calls_bound (fuel : nat) : Z :=
  match fuel with O => 0 | S fuel' => 1 + 8 * calls_bound fuel' end.

(** The number of letters of a string, and the decimal digits. *)
Definition letter_count (s : str) : nat := length (filter (λ c, isalpha c = true) s).
Definition isdigit (c : ascii) : bool := (48 <=? uchar_val c) && (uchar_val c <=? 57).

(** The thread's distribution object, when it exists, is in a state of
    [dist_inv]. *)
Definition tl_ok {D : Type} (dist_inv : D → Prop) (tl : option D) : Prop :=
  match tl with Some d => dist_inv d | None => True end.

Global Arguments Trie.Node_new : simpl never.

(** ** Definitions of the further properties *)

(** The invariant of the tries that [insert] builds from [Trie()]. *)
Definition trie_inv (tr : Trie.Trie) : Prop := wf_trie tr ∧ path_inj (Trie.t tr).

(** The trie after [insert("cat")] into [Trie()]. *)
Definition example_trie : Trie.Trie :=
  match Trie.insert Trie.new (lit "cat") with Ret tr => tr | _ => Trie.new end.

(** The accepted tokens of a word list, lowercased, in order. *)
Definition accepted_words (content : str) : list str :=
  map (map tolower) (filter accepted (tokens content)).

(** The number of rows (or columns) within distance 1 of row (or column)
    [x] of the grid, and the number of neighbours of a cell. *)
Definition span (x : Z) : Z := if (x =? 0) || (x =? 3) then 2 else 3.
Definition neighbour_count (cell : Z) : Z := span (cell_row cell) * span (cell_col cell) - 1.

(** Row by row: no cell twice, as many cells as the grid gives. *)
Definition rows_check : bool :=
  forallb (λ a,
    let row := default [] (build_neighbors_4x4 !! Z.to_nat a) in
    bool_decide (NoDup row) && (sizeZ row =? neighbour_count a)) (seqZ 0 16).

(** The bodies of the loops of [parse_board_any] over the rows and over
    the cells of a sequence ([parse_seq_unfold] below). *)
Definition rows_body (o : py_object) (t : str) : res str :=
  row ← cast_string o; Ret (append_letters t row).
Definition cells_body (o : py_object) (b : str) : res str :=
  cell ← cast_string o;
  match cell with
  | [c] =>
      if isalpha c then Ret (b ++ [tolower c])
      else Throw (runtime_error "board list must contain 16 single letters")
  | _ => Throw (runtime_error "board list must contain 16 single letters")
  end.

(** A cell of a board given as a list of 16 one-letter strings. *)
Definition cell_obj (c : ascii) : py_object := PyStr [c].

(** [w] extends the path string [cur], and is long enough to be a word. *)
Definition extends (cur w : str) : Prop :=
  cur `prefix_of` w ∧ (length cur < length w)%nat ∧ (3 ≤ length w)%nat.

(** A symmetry of the grid: [σ] and [θ] are inverse of each other on the
    cells and keep adjacency. *)
Definition grid_symmetry (σ θ : Z → Z) : Prop :=
  ∀ a, in_grid a →
    in_grid (σ a) ∧ θ (σ a) = a ∧ σ (θ a) = a ∧ in_grid (θ a) ∧
    ∀ b, in_grid b → king_adjacent a b → king_adjacent (σ a) (σ b) ∧ king_adjacent (θ a) (θ b).

Definition grid_symmetry_check (σ θ : Z → Z) : bool :=
  forallb (λ a,
    bool_decide (in_grid (σ a)) && (θ (σ a) =? a) && (σ (θ a) =? a) &&
    bool_decide (in_grid (θ a)) &&
    forallb (λ b, implb (king_adjacentb a b)
                    (king_adjacentb (σ a) (σ b) && king_adjacentb (θ a) (θ b)))
      (seqZ 0 16)) (seqZ 0 16).

(** The transposition of the grid, and its reflection left to right. *)
Definition transpose_cell (c : Z) : Z := 4 * (c mod 4) + c / 4.
Definition mirror_cell (c : Z) : Z := 4 * (c / 4) + (3 - c mod 4).

(** * Proofs *)

(** * Machine integers *)

Lemma to_int_id x : INT_MIN <= x <= INT_MAX → to_int x = x.
Proof.
  unfold to_int, wrap_signed, INT_MIN, INT_MAX. intros H.
  rewrite Z.mod_small; lia.
Qed.

Lemma to_int_range x : INT_MIN <= to_int x <= INT_MAX.
Proof.
  unfold to_int, wrap_signed, INT_MIN, INT_MAX.
  pose proof (Z.mod_pos_bound (x + 2 ^ (32 - 1)) (2 ^ 32)). lia.
Qed.

Lemma to_llong_id x : - 2 ^ 63 <= x < 2 ^ 63 → to_llong x = x.
Proof.
  unfold to_llong, wrap_signed. intros H.
  rewrite Z.mod_small; lia.
Qed.

(** * [word_score] *)

Lemma word_score_small len : len < 3 → word_score len = 0.
Proof. intros H. unfold word_score. destruct (Z.ltb_spec len 3); [done | lia]. Qed.

Lemma word_score_linear len :
  8 <= len <= score_max_len → word_score len = 2200 + 400 * (len - 8).
Proof.
  unfold score_max_len. intros H. unfold word_score.
  repeat match goal with
  | |- context [?a <? ?b] => destruct (Z.ltb_spec a b); [lia |]
  | |- context [?a =? ?b] => destruct (Z.eqb_spec a b); [lia |]
  end.
  rewrite (to_int_id (len - 8)) by (unfold INT_MIN, INT_MAX; lia).
  rewrite (to_int_id (400 * _)) by (unfold INT_MIN, INT_MAX; lia).
  apply to_int_id. unfold INT_MIN, INT_MAX; lia.
Qed.

Lemma word_score_cases len :
  len <= score_max_len →
  word_score len =
    if len <? 3 then 0 else if len =? 3 then 100 else if len =? 4 then 400
    else if len =? 5 then 800 else if len =? 6 then 1400
    else if len =? 7 then 1800 else 2200 + 400 * (len - 8).
Proof.
  intros H. destruct (Z.le_gt_cases 8 len).
  - rewrite word_score_linear by lia.
    repeat match goal with
    | |- context [?a <? ?b] => destruct (Z.ltb_spec a b); [lia |]
    | |- context [?a =? ?b] => destruct (Z.eqb_spec a b); [lia |]
    end. done.
  - unfold word_score.
    repeat match goal with
    | |- context [?a <? ?b] => destruct (Z.ltb_spec a b); [done |]
    | |- context [?a =? ?b] => destruct (Z.eqb_spec a b); [done |]
    end. lia.
Qed.

Lemma word_score_mono a b :
  a <= b → b <= score_max_len → word_score a <= word_score b.
Proof.
  intros Hab Hb. rewrite !word_score_cases by lia.
  repeat match goal with
  | |- context [?a <? ?b] => destruct (Z.ltb_spec a b)
  | |- context [?a =? ?b] => destruct (Z.eqb_spec a b)
  end; lia.
Qed.

(** C3 (as amended): [word_score len] is 0 for [len < 3], follows the
    table 3 -> 100, 4 -> 400, 5 -> 800, 6 -> 1400, 7 -> 1800, is
    [2200 + 400 * (len - 8)] for [8 <= len <= 5368711], the lengths whose
    score fits an [int], and is non-decreasing up to that length. *)
Theorem word_score_table (len : Z) :
  (len < 3 → word_score len = 0) ∧
  word_score 3 = 100 ∧ word_score 4 = 400 ∧ word_score 5 = 800 ∧
  word_score 6 = 1400 ∧ word_score 7 = 1800 ∧
  (8 <= len <= score_max_len → word_score len = 2200 + 400 * (len - 8)) ∧
  (∀ len', len <= len' → len' <= score_max_len → word_score len <= word_score len').
Proof.
  repeat split; try reflexivity.
  - apply word_score_small.
  - apply word_score_linear.
  - intros. by apply word_score_mono.
Qed.

Lemma word_score_table_witness :
  (2 < 3 → word_score 2 = 0) ∧ word_score 16 = 2200 + 400 * (16 - 8) ∧
  word_score 16 <= word_score score_max_len.
Proof.
  destruct (word_score_table 16) as (_ & _ & _ & _ & _ & _ & Hl & Hm).
  destruct (word_score_table 2) as (Hs & _).
  split; [exact Hs|]. split.
  - apply Hl. unfold score_max_len. lia.
  - apply Hm; unfold score_max_len; lia.
Defined.

(** Beyond that length the score does not fit the [int] that
    [word_score] returns: it is not the value of the formula, and it is
    below the score of a shorter length. *)
Lemma word_score_overflow :
  word_score 5368712 = -2147483496 ∧
  word_score 5368712 ≠ 2200 + 400 * (5368712 - 8) ∧
  INT_MAX < 2200 + 400 * (5368712 - 8) ∧
  word_score 5368712 < word_score 5368711.
Proof. by vm_compute. Qed.

(** * Vectors and characters *)

Lemma vec_at_Ret {A} (v : list A) i x :
  vec_at v i = Ret x ↔ 0 <= i ∧ v !! Z.to_nat i = Some x.
Proof.
  unfold vec_at. destruct (Z.ltb_spec i 0).
  - split; [done | lia].
  - destruct (v !! Z.to_nat i); split; intros; try done; destruct_and?; simplify_eq; auto.
Qed.

Lemma vec_at_lookup {A} (v : list A) i x :
  0 <= i → v !! Z.to_nat i = Some x → vec_at v i = Ret x.
Proof. intros. by apply vec_at_Ret. Qed.

Lemma vec_at_in_range {A} (v : list A) i :
  0 <= i < sizeZ v → ∃ x, vec_at v i = Ret x ∧ v !! Z.to_nat i = Some x.
Proof.
  unfold sizeZ. intros H.
  destruct (lookup_lt_is_Some_2 v (Z.to_nat i)) as [x Hx]; [lia|].
  exists x. split; [apply vec_at_lookup; [lia | done] | done].
Qed.

Lemma node_at_Some tv v nd :
  node_at tv v = Some nd ↔ 0 <= v ∧ tv !! Z.to_nat v = Some nd.
Proof.
  unfold node_at. destruct (Z.ltb_spec v 0); split; intros; destruct_and?; try done; try lia; auto.
Qed.

Lemma uchar_val_range c : 0 <= uchar_val c < 256.
Proof. unfold uchar_val. pose proof (N_ascii_bounded c). lia. Qed.

Lemma uchar_val_inj c c' : uchar_val c = uchar_val c' → c = c'.
Proof.
  unfold uchar_val. intros H.
  rewrite <- (ascii_N_embedding c), <- (ascii_N_embedding c'). f_equal. lia.
Qed.

Lemma char_val_inj c c' : char_val c = char_val c' → c = c'.
Proof.
  unfold char_val. intros H. apply uchar_val_inj.
  pose proof (uchar_val_range c). pose proof (uchar_val_range c').
  destruct (Z.ltb_spec (uchar_val c) 128), (Z.ltb_spec (uchar_val c') 128); lia.
Qed.

Lemma letter_index_Some c k :
  letter_index c = Some k ↔ k = char_val c - 97 ∧ 0 <= k < 26.
Proof.
  unfold letter_index.
  destruct (Z.leb_spec 0 (char_val c - 97)), (Z.ltb_spec (char_val c - 97) 26); simpl;
    split; intros; destruct_and?; simplify_eq; try done; try lia.
Qed.

Lemma letter_index_inj c c' k :
  letter_index c = Some k → letter_index c' = Some k → c = c'.
Proof.
  rewrite !letter_index_Some. intros [-> _] [? _]. apply char_val_inj. lia.
Qed.

Lemma letter_index_uchar c k :
  letter_index c = Some k → uchar_val c = k + 97.
Proof.
  rewrite letter_index_Some. unfold char_val. pose proof (uchar_val_range c).
  destruct (Z.ltb_spec (uchar_val c) 128); lia.
Qed.

Lemma uchar_val_char_of n : 0 <= n < 256 → uchar_val (char_of n) = n.
Proof.
  intros H. unfold uchar_val, char_of. rewrite Z.mod_small by lia.
  rewrite N_ascii_embedding by lia. lia.
Qed.

Lemma isalpha_tolower_lower c : isalpha c = true → is_lower (tolower c).
Proof.
  unfold isalpha, tolower, is_lower. intros H.
  pose proof (uchar_val_range c) as Hr.
  assert (∃ k, letter_index (if (65 <=? uchar_val c) && (uchar_val c <=? 90)
                  then char_of (uchar_val c + 32) else c) = Some k) as [k Hk]; [|eauto].
  destruct (Z.leb_spec 65 (uchar_val c)), (Z.leb_spec (uchar_val c) 90); simpl in *.
  - exists (uchar_val c + 32 - 97). apply letter_index_Some.
    unfold char_val. rewrite uchar_val_char_of by lia.
    destruct (Z.ltb_spec (uchar_val c + 32) 128); lia.
  - exists (uchar_val c - 97). apply letter_index_Some. unfold char_val.
    destruct (Z.leb_spec 97 (uchar_val c)), (Z.leb_spec (uchar_val c) 122); simpl in *; try done.
    destruct (Z.ltb_spec (uchar_val c) 128); lia.
  - exists (uchar_val c - 97). apply letter_index_Some. unfold char_val.
    destruct (Z.leb_spec 97 (uchar_val c)), (Z.leb_spec (uchar_val c) 122); simpl in *; try done; lia.
  - lia.
Qed.

(** * Well-formed tries *)

Lemma child_Some tv v c e :
  child tv v c = Some e ↔
  ∃ k nd, letter_index c = Some k ∧ 0 <= v ∧ tv !! Z.to_nat v = Some nd ∧
          Trie.next nd !! Z.to_nat k = Some e ∧ e ≠ -1.
Proof.
  unfold child. split.
  - intros H. destruct (letter_index c) as [k|] eqn:Hk; simpl in H; [|done].
    destruct (node_at tv v) as [nd|] eqn:Hnd; simpl in H; [|done].
    destruct (Trie.next nd !! Z.to_nat k) as [e'|] eqn:He; simpl in H; [|done].
    apply node_at_Some in Hnd as [? ?].
    destruct (Z.eqb_spec e' (-1)); simplify_eq. eauto 10.
  - intros (k & nd & -> & Hv & Hnd & He & Hne). simpl.
    assert (node_at tv v = Some nd) as -> by by apply node_at_Some.
    simpl. rewrite He. simpl. destruct (Z.eqb_spec e (-1)); done.
Qed.

Lemma wf_nodes_lookup tv v nd :
  wf_nodes tv → tv !! v = Some nd → wf_node (length tv) nd.
Proof. intros [_ H] Hv. eapply Forall_lookup in H; eauto. Qed.

Lemma wf_node_slot n nd k e :
  wf_node n nd → Trie.next nd !! k = Some e → e = -1 ∨ 0 <= e < Z.of_nat n.
Proof. intros [_ H] Hk. eapply Forall_lookup in H; eauto. Qed.

Lemma wf_node_has_slot n nd k :
  wf_node n nd → 0 <= k < 26 → ∃ e, Trie.next nd !! Z.to_nat k = Some e.
Proof.
  intros [Hlen _] Hk. apply lookup_lt_is_Some. rewrite Hlen. lia.
Qed.

Lemma wf_child tv v c e :
  wf_nodes tv → child tv v c = Some e → 0 <= e < sizeZ tv.
Proof.
  intros Hwf (k & nd & Hk & Hv & Hnd & He & Hne)%child_Some.
  eapply wf_node_slot in He; [|by eapply wf_nodes_lookup]. unfold sizeZ. lia.
Qed.

Lemma wf_walk tv v w x :
  wf_nodes tv → 0 <= v < sizeZ tv → walk tv v w = Some x → 0 <= x < sizeZ tv.
Proof.
  intros Hwf. revert v. induction w as [|c w IH]; intros v Hv; simpl.
  - intros; by simplify_eq.
  - destruct (child tv v c) as [v'|] eqn:Hc; simpl; [|done].
    apply IH. by eapply wf_child.
Qed.

Lemma walk_app tv v w1 w2 :
  walk tv v (w1 ++ w2) = walk tv v w1 ≫= λ v', walk tv v' w2.
Proof.
  revert v. induction w1 as [|c w1 IH]; intros v; simpl; [done|].
  destruct (child tv v c); simpl; [apply IH | done].
Qed.

Lemma Node_new_slot k e : Trie.next Trie.Node_new !! k = Some e → e = -1.
Proof. unfold Trie.Node_new, Trie.next. by intros [-> _]%lookup_replicate. Qed.

Lemma wf_nodes_new : wf_nodes [Trie.Node_new].
Proof.
  split; [simpl; lia|]. constructor; [|constructor].
  split; [done|]. apply Forall_replicate. by left.
Qed.

Lemma path_inj_new : path_inj [Trie.Node_new].
Proof.
  assert (∀ p v, walk [Trie.Node_new] 0 p = Some v → p = []) as H.
  { intros [|c p] v; [done|]. simpl.
    destruct (child [Trie.Node_new] 0 c) as [e|] eqn:Hc; [|done].
    apply child_Some in Hc as (k & nd & Hk & _ & Hnd & He & Hne).
    apply list_lookup_singleton_Some in Hnd as [_ <-].
    by apply Node_new_slot in He. }
  intros p q v Hp Hq. apply H in Hp, Hq. congruence.
Qed.

(** * Insertion *)

Lemma option_bind_Some {A B} (x : A) (f : A → option B) : Some x ≫= f = f x.
Proof. done. Qed.

Section grow.
Variables (tv : list Trie.Node) (v : Z) (nd : Trie.Node) (k : Z) (c : ascii).
Hypothesis Hwf : wf_nodes tv.
Hypothesis Hv : 0 <= v.
Hypothesis Hnd : tv !! Z.to_nat v = Some nd.
Hypothesis Hk : letter_index c = Some k.
Hypothesis Hslot : Trie.next nd !! Z.to_nat k = Some (-1).

Lemma grow_length : sizeZ (grow tv v nd k) = sizeZ tv + 1.
Proof. unfold grow, sizeZ. rewrite length_app, length_insert. simpl. lia. Qed.

Lemma node_at_grow a :
    0 <= a < sizeZ tv →
    node_at (grow tv v nd k) a =
      if decide (a = v) then Some (Trie.set_next nd k (sizeZ tv)) else node_at tv a.
Proof.
    unfold sizeZ. intros Ha. unfold node_at, grow.
    destruct (Z.ltb_spec a 0); [lia|].
    rewrite lookup_app_l by (rewrite length_insert; lia).
    destruct (decide (a = v)) as [->|Hne].
    - apply list_lookup_insert_eq. lia.
    - apply list_lookup_insert_ne. lia.
Qed.

Lemma node_at_grow_new : node_at (grow tv v nd k) (sizeZ tv) = Some Trie.Node_new.
Proof.
    unfold node_at, grow, sizeZ. destruct (Z.ltb_spec (Z.of_nat (length tv)) 0); [lia|].
    rewrite lookup_app_r by (rewrite length_insert; lia).
    rewrite length_insert. replace (_ - _)%nat with 0%nat by lia. done.
Qed.

Lemma child_old_slot : child tv v c = None.
Proof.
    unfold child. rewrite Hk. simpl.
    assert (node_at tv v = Some nd) as -> by by apply node_at_Some.
    simpl. rewrite Hslot. done.
Qed.

Lemma child_grow a c' :
    0 <= a < sizeZ tv →
    child (grow tv v nd k) a c' =
      if decide (a = v ∧ c' = c) then Some (sizeZ tv) else child tv a c'.
Proof.
    intros Ha. unfold child.
    destruct (letter_index c') as [k'|] eqn:Hk'; simpl.
    - rewrite node_at_grow by done.
      destruct (decide (a = v)) as [->|Hne]; simpl.
      + assert (node_at tv v = Some nd) as -> by by apply node_at_Some.
        simpl. destruct (decide (k' = k)) as [->|Hkk].
        * rewrite list_lookup_insert_eq by (by eapply lookup_lt_Some).
          simpl. rewrite decide_True by eauto using letter_index_inj.
          unfold sizeZ. destruct (Z.eqb_spec (Z.of_nat (length tv)) (-1)); [lia | done].
        * pose proof (proj1 (letter_index_Some _ _) Hk') as [_ ?].
          pose proof (proj1 (letter_index_Some _ _) Hk) as [_ ?].
          rewrite list_lookup_insert_ne by lia.
          rewrite decide_False; [done|]. intros [_ ->]. congruence.
      + rewrite decide_False by naive_solver. done.
    - rewrite decide_False; [|intros [_ ->]; congruence]. reflexivity.
Qed.

Lemma child_grow_new c' : child (grow tv v nd k) (sizeZ tv) c' = None.
Proof.
    unfold child. destruct (letter_index c') as [k'|]; simpl; [|done].
    rewrite node_at_grow_new, option_bind_Some.
    destruct (Trie.next Trie.Node_new !! Z.to_nat k') as [e|] eqn:He; [|done].
    apply Node_new_slot in He as ->. done.
Qed.

Lemma walk_grow_new u x :
    walk (grow tv v nd k) (sizeZ tv) u = Some x → u = [] ∧ x = sizeZ tv.
Proof.
    destruct u as [|c' u]; simpl; [naive_solver|].
    rewrite child_grow_new. done.
Qed.

Lemma walk_grow_old a u x :
    0 <= a < sizeZ tv → walk tv a u = Some x → walk (grow tv v nd k) a u = Some x.
Proof.
    revert a. induction u as [|c' u IH]; intros a Ha; simpl; [done|].
    rewrite child_grow by done.
    destruct (decide (a = v ∧ c' = c)) as [[-> ->]|Hne].
    - rewrite child_old_slot. done.
    - destruct (child tv a c') as [a'|] eqn:Hc; simpl; [|done].
      apply IH. by eapply wf_child.
Qed.

Lemma walk_grow_inv a u x :
    0 <= a < sizeZ tv → walk (grow tv v nd k) a u = Some x →
    walk tv a u = Some x ∨
    (x = sizeZ tv ∧ ∃ u', u = u' ++ [c] ∧ walk tv a u' = Some v).
Proof.
    revert a. induction u as [|c' u IH]; intros a Ha; simpl; [by left|].
    rewrite child_grow by done.
    destruct (decide (a = v ∧ c' = c)) as [[-> ->]|Hne]; simpl.
    - intros [-> ->]%walk_grow_new. right. split; [done|]. by exists [].
    - destruct (child tv a c') as [a'|] eqn:Hc; simpl; [|done].
      intros [H|(-> & u' & -> & H)]%IH; [by left | | by eapply wf_child].
      right. split; [done|]. exists (c' :: u'). simpl. rewrite Hc. done.
Qed.

Lemma is_terminal_grow a :
    0 <= a < sizeZ tv → is_terminal (grow tv v nd k) a = is_terminal tv a.
Proof.
    intros Ha. unfold is_terminal. rewrite node_at_grow by done.
    destruct (decide (a = v)) as [->|]; [|done].
    assert (node_at tv v = Some nd) as -> by by apply node_at_Some. done.
Qed.

Lemma accepts_grow u : accepts (grow tv v nd k) u = accepts tv u.
Proof.
    assert (0 <= 0 < sizeZ tv) as H0 by (destruct Hwf; unfold sizeZ; lia).
    unfold accepts. destruct (walk tv 0 u) as [x|] eqn:Hw.
    - erewrite walk_grow_old by done. simpl. apply is_terminal_grow.
      by eapply wf_walk.
    - destruct (walk (grow tv v nd k) 0 u) as [x|] eqn:Hw'; [|done].
      apply walk_grow_inv in Hw' as [?|(-> & _)]; [congruence | | done].
      simpl. unfold is_terminal. by rewrite node_at_grow_new.
Qed.

Lemma wf_nodes_grow : wf_nodes (grow tv v nd k).
Proof.
    destruct Hwf as [Hpos Hall]. split.
    - unfold grow. rewrite length_app, length_insert. simpl. lia.
    - assert (length (grow tv v nd k) = S (length tv)) as ->.
      { unfold grow. rewrite length_app, length_insert. simpl. lia. }
      assert (∀ m, wf_node (length tv) m → wf_node (S (length tv)) m) as Hup.
      { intros m [? Hm]. split; [done|].
        eapply Forall_impl; [done|]. simpl. intros; lia. }
      unfold grow. apply Forall_app. split.
      + apply Forall_insert; [by eapply Forall_impl|].
        pose proof (wf_nodes_lookup _ _ _ Hwf Hnd) as [Hlen Hs].
        split; simpl; [by rewrite length_insert|].
        apply Forall_insert; [|unfold sizeZ; lia].
        eapply Forall_impl; [done|]. simpl. intros; lia.
      + constructor; [|constructor]. split; [done|].
        apply Forall_replicate. by left.
Qed.

Lemma path_inj_grow : path_inj tv → path_inj (grow tv v nd k).
Proof.
    assert (0 <= 0 < sizeZ tv) as H0 by (destruct Hwf; unfold sizeZ; lia).
    intros Hinj p q x Hp Hq.
    apply walk_grow_inv in Hp as [Hp|(-> & p' & -> & Hp)]; [| |done];
      apply walk_grow_inv in Hq as [Hq|(Hx & q' & -> & Hq)]; try done.
    - by eapply Hinj.
    - apply wf_walk in Hp; [lia|done..].
    - apply wf_walk in Hq; [lia|done..].
    - f_equal. by eapply Hinj.
Qed.

Lemma walk_grow_edge p :
    walk tv 0 p = Some v → walk (grow tv v nd k) 0 (p ++ [c]) = Some (sizeZ tv).
Proof.
    assert (0 <= 0 < sizeZ tv) as H0 by (destruct Hwf; unfold sizeZ; lia).
    intros Hp. rewrite walk_app. erewrite walk_grow_old by done. simpl.
    rewrite child_grow; [by rewrite decide_True|].
    by eapply wf_walk.
Qed.
End grow.

Section mark_terminal.
Variables (tv : list Trie.Node) (v : Z) (nd : Trie.Node).
Hypothesis Hv : 0 <= v.
Hypothesis Hnd : tv !! Z.to_nat v = Some nd.

Lemma node_at_mark a :
    node_at (set_terminal_at tv v nd) a =
      if decide (a = v) then Some (Trie.set_terminal nd) else node_at tv a.
Proof.
    unfold node_at, set_terminal_at. destruct (Z.ltb_spec a 0).
    - rewrite decide_False by lia. done.
    - destruct (decide (a = v)) as [->|].
      + apply list_lookup_insert_eq. by eapply lookup_lt_Some.
      + apply list_lookup_insert_ne. lia.
Qed.

Lemma child_mark a c : child (set_terminal_at tv v nd) a c = child tv a c.
Proof.
    unfold child. destruct (letter_index c); simpl; [|done].
    rewrite node_at_mark. destruct (decide (a = v)) as [->|]; [|done].
    assert (node_at tv v = Some nd) as -> by by apply node_at_Some. done.
Qed.

Lemma walk_mark a u : walk (set_terminal_at tv v nd) a u = walk tv a u.
Proof.
    revert a. induction u as [|c u IH]; intros a; simpl; [done|].
    rewrite child_mark. destruct (child tv a c); simpl; auto.
Qed.

Lemma is_terminal_mark a :
    is_terminal (set_terminal_at tv v nd) a =
      if decide (a = v) then true else is_terminal tv a.
Proof.
    unfold is_terminal. rewrite node_at_mark. by destruct (decide (a = v)).
Qed.

Lemma wf_nodes_mark : wf_nodes tv → wf_nodes (set_terminal_at tv v nd).
Proof.
    intros Hwf. pose proof (wf_nodes_lookup _ _ _ Hwf Hnd) as Hn.
    destruct Hwf as [Hpos Hall]. unfold set_terminal_at. split.
    - by rewrite length_insert.
    - rewrite length_insert. by apply Forall_insert.
Qed.

Lemma path_inj_mark : path_inj tv → path_inj (set_terminal_at tv v nd).
Proof. intros Hinj p q x. rewrite !walk_mark. apply Hinj. Qed.

Lemma accepts_mark p u :
    path_inj tv → walk tv 0 p = Some v →
    accepts (set_terminal_at tv v nd) u = accepts tv u || bool_decide (u = p).
Proof.
    intros Hinj Hp. unfold accepts. rewrite walk_mark.
    destruct (walk tv 0 u) as [x|] eqn:Hu; simpl.
    - rewrite is_terminal_mark. destruct (decide (x = v)) as [->|Hne].
      + rewrite (bool_decide_eq_true_2 (u = p)) by by eapply Hinj.
        by rewrite orb_true_r.
      + rewrite (bool_decide_eq_false_2 (u = p)); [by rewrite orb_false_r|].
        intros ->. congruence.
    - rewrite bool_decide_eq_false_2; [done|]. intros ->. congruence.
Qed.
End mark_terminal.

Lemma res_bind_Ret {A B} (a : A) (f : A → res B) : Ret a ≫= f = f a.
Proof. done. Qed.

Lemma vec_at_node_at tv v nd : node_at tv v = Some nd → vec_at tv v = Ret nd.
Proof. intros [? ?]%node_at_Some. by apply vec_at_lookup. Qed.

Lemma wf_nodes_root tv : wf_nodes tv → 0 <= 0 < sizeZ tv.
Proof. intros [? _]. unfold sizeZ. lia. Qed.

Lemma insert_from_spec w : ∀ tv v p,
  wf_nodes tv → path_inj tv → walk tv 0 p = Some v →
  Forall is_lower w → sizeZ tv + sizeZ w <= INT_MAX →
  ∃ tv', Trie.insert_from tv v w = Ret tv' ∧ wf_nodes tv' ∧ path_inj tv' ∧
         sizeZ tv' <= sizeZ tv + sizeZ w ∧
         ∀ u, accepts tv' u = accepts tv u || bool_decide (u = p ++ w).
Proof.
  induction w as [|c w IH]; intros tv v p Hwf Hinj Hp Hlow Hsize.
  - pose proof (wf_walk _ _ _ _ Hwf (wf_nodes_root _ Hwf) Hp) as Hv.
    destruct (vec_at_in_range tv v Hv) as (nd & Hat & Hnd).
    exists (set_terminal_at tv v nd). simpl. rewrite Hat, res_bind_Ret.
    split; [done|]. split; [apply wf_nodes_mark; done|].
    split; [apply path_inj_mark; [lia|done..]|].
    split; [unfold set_terminal_at, sizeZ; rewrite length_insert; simpl; lia|].
    intros u. rewrite app_nil_r. apply accepts_mark; [lia|done..].
  - apply Forall_cons in Hlow as [[k Hk] Hlow].
    pose proof (wf_walk _ _ _ _ Hwf (wf_nodes_root _ Hwf) Hp) as Hv.
    destruct (vec_at_in_range tv v Hv) as (nd & Hat & Hnd).
    pose proof (proj1 (letter_index_Some _ _) Hk) as [Hkc Hkr].
    pose proof (wf_nodes_lookup _ _ _ Hwf Hnd) as Hwn.
    destruct (wf_node_has_slot _ _ _ Hwn Hkr) as [e He].
    assert (sizeZ (c :: w) = 1 + sizeZ w) as Hcw by (unfold sizeZ; simpl; lia).
    assert (0 <= sizeZ w) by (unfold sizeZ; lia).
    assert (0 <= v) as Hv0 by lia.
    cbn [Trie.insert_from]. rewrite <- Hkc, Hat, res_bind_Ret.
    rewrite (vec_at_lookup _ _ _ (proj1 Hkr) He), res_bind_Ret.
    destruct (Z.eqb_spec e (-1)) as [->|Hne].
    + rewrite to_int_id by (unfold INT_MIN, INT_MAX in *; unfold sizeZ in *; lia).
      fold (grow tv v nd k).
      rewrite (vec_at_node_at (grow tv v nd k) v (Trie.set_next nd k (sizeZ tv))).
      2:{ rewrite node_at_grow by done. by rewrite decide_True. }
      rewrite res_bind_Ret.
      assert (vec_at (Trie.next (Trie.set_next nd k (sizeZ tv))) k = Ret (sizeZ tv)) as ->.
      { apply vec_at_lookup; [lia|]. simpl.
        apply list_lookup_insert_eq. by eapply lookup_lt_Some. }
      rewrite res_bind_Ret.
      destruct (IH (grow tv v nd k) (sizeZ tv) (p ++ [c])) as (tv' & Hins & Hwf' & Hinj' & Hsz & Hacc).
      * eapply wf_nodes_grow; eauto; lia.
      * eapply path_inj_grow; eauto; lia.
      * eapply walk_grow_edge; eauto; lia.
      * done.
      * rewrite grow_length. lia.
      * exists tv'. split; [done|]. split; [done|]. split; [done|].
        split; [rewrite grow_length in Hsz; lia|].
        intros u. rewrite Hacc. erewrite accepts_grow by (eauto; lia).
        by rewrite <- app_assoc.
    + rewrite Hat, res_bind_Ret.
      rewrite (vec_at_lookup _ _ _ (proj1 Hkr) He), res_bind_Ret.
      destruct (IH tv e (p ++ [c])) as (tv' & Hins & Hwf' & Hinj' & Hsz & Hacc); try done.
      * rewrite walk_app, Hp. simpl.
        assert (child tv v c = Some e) as ->; [|done].
        apply child_Some. exists k, nd. repeat split; try done; lia.
      * lia.
      * exists tv'. split; [done|]. split; [done|]. split; [done|].
        split; [lia|]. intros u. rewrite Hacc. by rewrite <- app_assoc.
Qed.

(** * The constructor of [Dictionary] *)

Lemma sizeZ_nonneg {A} (l : list A) : 0 <= sizeZ l.
Proof. unfold sizeZ. lia. Qed.

Lemma sizeZ_app {A} (l1 l2 : list A) : sizeZ (l1 ++ l2) = sizeZ l1 + sizeZ l2.
Proof. unfold sizeZ. rewrite length_app. lia. Qed.

Lemma sizeZ_cons {A} (x : A) (l : list A) : sizeZ (x :: l) = 1 + sizeZ l.
Proof. unfold sizeZ. simpl. lia. Qed.

Lemma letters_nonneg toks : 0 <= letters toks.
Proof. induction toks as [|w toks IH]; simpl; [done|]. pose proof (sizeZ_nonneg w). lia. Qed.

Lemma tokens_from_letters s : ∀ w, letters (tokens_from s w) <= sizeZ s + sizeZ w.
Proof.
  induction s as [|c s IH]; intros w; simpl.
  - destruct w; simpl; [done|]. unfold sizeZ. simpl. lia.
  - rewrite sizeZ_cons. destruct (isspace c).
    + specialize (IH []). pose proof (sizeZ_nonneg w).
      destruct w; simpl; [|rewrite !sizeZ_cons in *]; unfold sizeZ in *; simpl in *; lia.
    + specialize (IH (w ++ [c])). rewrite sizeZ_app in IH.
      unfold sizeZ in *. simpl in *. lia.
Qed.

Lemma tokens_letters content : letters (tokens content) <= sizeZ content.
Proof. unfold tokens. pose proof (tokens_from_letters content []). unfold sizeZ in *. simpl in *. lia. Qed.

Lemma lower_word_ok w : ∀ s,
  Forall (λ c, isalpha c = true) w →
  Dictionary.lower_word w s = (true, s ++ map tolower w).
Proof.
  induction w as [|c w IH]; intros s Hw; simpl.
  - by rewrite app_nil_r.
  - apply Forall_cons in Hw as [-> Hw]. simpl.
    rewrite IH by done. by rewrite <- app_assoc.
Qed.

Lemma lower_word_fail w : ∀ s,
  ¬ Forall (λ c, isalpha c = true) w → (Dictionary.lower_word w s).1 = false.
Proof.
  induction w as [|c w IH]; intros s Hw; simpl.
  - destruct Hw. constructor.
  - destruct (isalpha c) eqn:Hc; simpl; [|done].
    apply IH. intros H. apply Hw. by constructor.
Qed.

Lemma lowercased_is_lower tok :
  Forall (λ c, isalpha c = true) tok → Forall is_lower (map tolower tok).
Proof.
  intros H. apply Forall_fmap. eapply Forall_impl; [done|].
  intros c Hc. by apply isalpha_tolower_lower.
Qed.

Lemma accepts_new u : accepts [Trie.Node_new] u = false.
Proof.
  unfold accepts. destruct (walk [Trie.Node_new] 0 u) as [x|] eqn:Hw; [|done].
  pose proof (path_inj_new u [] x Hw) as Hu. simpl.
  destruct u as [|c u].
  - simpl in Hw. by simplify_eq.
  - simpl in Hw. destruct (child [Trie.Node_new] 0 c) as [e|] eqn:Hc; [|done].
    apply child_Some in Hc as (k & nd & _ & _ & Hnd & He & Hne).
    apply list_lookup_singleton_Some in Hnd as [_ <-].
    by apply Node_new_slot in He.
Qed.

Lemma add_token_spec tok tv :
  wf_nodes tv → path_inj tv → sizeZ tv + sizeZ tok <= INT_MAX →
  ∃ tv', Dictionary.add_token tok (Trie.mkTrie tv) = Ret (Trie.mkTrie tv') ∧
         wf_nodes tv' ∧ path_inj tv' ∧ sizeZ tv' <= sizeZ tv + sizeZ tok ∧
         ∀ u, accepts tv' u = true ↔
              accepts tv u = true ∨ (accepted tok ∧ u = map tolower tok).
Proof.
  intros Hwf Hinj Hsize. unfold Dictionary.add_token.
  pose proof (sizeZ_nonneg tok) as Htok. pose proof (sizeZ_nonneg tv) as Htv.
  assert (0 < sizeZ tv) by (apply wf_nodes_root in Hwf; lia).
  destruct (decide (Forall (λ c, isalpha c = true) tok)) as [Hal|Hal].
  - rewrite lower_word_ok by done. simpl.
    assert (sizeZ (map tolower tok) = sizeZ tok) as Hlen
      by (unfold sizeZ; by rewrite length_map).
    rewrite Hlen, to_int_id by (unfold INT_MIN, INT_MAX in *; lia).
    destruct (Z.leb_spec 3 (sizeZ tok)) as [H3|H3].
    + destruct (insert_from_spec (map tolower tok) tv 0 []) as (tv' & Hins & ? & ? & ? & Hacc);
        [done.. | by apply lowercased_is_lower | lia |].
      exists tv'. unfold Trie.insert. simpl. rewrite Hins, res_bind_Ret.
      split; [done|]. split; [done|]. split; [done|]. split; [lia|].
      intros u. rewrite Hacc, orb_true_iff, bool_decide_eq_true. simpl.
      unfold accepted. unfold sizeZ in H3. split; intros [?|?]; auto.
      * right. split; [split; [done | lia] | done].
      * right. naive_solver.
    + exists tv. split; [done|]. split; [done|]. split; [done|]. split; [lia|].
      intros u. unfold accepted, sizeZ in *. split; [auto | intros [?|[[_ ?] _]]; [done | lia]].
  - pose proof (lower_word_fail tok [] Hal) as Hf.
    destruct (Dictionary.lower_word tok []) as [ok s]. simpl in Hf. subst ok. simpl.
    exists tv. split; [done|]. split; [done|]. split; [done|]. split; [lia|].
    intros u. unfold accepted. split; [auto | intros [?|[[? _] _]]; done].
Qed.

Lemma build_spec toks : ∀ tv,
  wf_nodes tv → path_inj tv → sizeZ tv + letters toks <= INT_MAX →
  ∃ tv', for_each toks Dictionary.add_token (Trie.mkTrie tv) = Ret (Trie.mkTrie tv') ∧
         wf_nodes tv' ∧ path_inj tv' ∧
         ∀ u, accepts tv' u = true ↔
              accepts tv u = true ∨ ∃ tok, tok ∈ toks ∧ accepted tok ∧ u = map tolower tok.
Proof.
  induction toks as [|tok toks IH]; intros tv Hwf Hinj Hsize.
  - exists tv. split; [done|]. split; [done|]. split; [done|].
    intros u. split; [auto|]. intros [?|(tok & Hin & _)]; [done|]. by apply elem_of_nil in Hin.
  - simpl in Hsize. pose proof (letters_nonneg toks).
    destruct (add_token_spec tok tv) as (tv1 & Hadd & Hwf1 & Hinj1 & Hsz1 & Hacc1); [done.. | lia |].
    destruct (IH tv1) as (tv' & Hrest & Hwf' & Hinj' & Hacc'); [done.. | lia |].
    exists tv'. cbn [for_each]. rewrite Hadd, res_bind_Ret.
    split; [done|]. split; [done|]. split; [done|].
    intros u. rewrite Hacc', Hacc1. split.
    + intros [[?|[? ?]]|(tok' & ? & ? & ?)]; [by left | right..].
      * exists tok. split; [by left | done].
      * exists tok'. split; [by right | done].
    + intros [?|(tok' & [->|Hin]%elem_of_cons & ? & ?)]; [by left; left | |].
      * left. by right.
      * right. by exists tok'.
Qed.

Lemma Dictionary_new_spec fs dict_path content :
  fs dict_path = Some content → sizeZ content < INT_MAX →
  ∃ d, Dictionary.new fs dict_path = Ret d ∧
       Dictionary.nbr d = build_neighbors_4x4 ∧
       wf_trie (Dictionary.trie d) ∧ path_inj (Trie.t (Dictionary.trie d)) ∧
       ∀ u, contains (Dictionary.trie d) u ↔ dictionary_word content u.
Proof.
  intros Hfs Hsize. unfold Dictionary.new. rewrite Hfs.
  destruct (build_spec (tokens content) [Trie.Node_new]) as (tv' & Hb & Hwf & Hinj & Hacc).
  - apply wf_nodes_new.
  - apply path_inj_new.
  - pose proof (tokens_letters content). unfold sizeZ in *. simpl. lia.
  - exists (Dictionary.mkDictionary (Trie.mkTrie tv') build_neighbors_4x4).
    unfold Trie.new. rewrite Hb, res_bind_Ret.
    split; [done|]. split; [done|]. split; [done|]. split; [done|].
    intros u. unfold contains, dictionary_word. simpl. rewrite Hacc, accepts_new.
    naive_solver.
Qed.

Lemma dictionary_word_shape content w :
  dictionary_word content w → (3 <= length w)%nat ∧ Forall is_lower w.
Proof.
  intros (tok & _ & [Hal Hlen] & ->). split.
  - by rewrite length_map.
  - by apply lowercased_is_lower.
Qed.

(** * The visited mask *)

Lemma mark_range mask cell : 0 <= mark mask cell < 2 ^ 16.
Proof. unfold mark, to_uint16. apply Z.mod_pos_bound. lia. Qed.

Lemma visited_mark mask cell c :
  in_grid cell → in_grid c →
  visited (mark mask cell) c = visited mask c || bool_decide (c = cell).
Proof.
  unfold in_grid, visited, mark, to_uint16, to_uint32. intros Hcell Hc.
  rewrite Z.testbit_mod_pow2, Z.lor_spec by lia.
  rewrite !Z.testbit_mod_pow2 by lia.
  rewrite Z.shiftl_1_l, Z.pow2_bits_eqb by lia.
  destruct (Z.ltb_spec c 16); [|lia]. destruct (Z.ltb_spec c 32); [|lia]. simpl.
  f_equal. destruct (Z.eqb_spec cell c); [by rewrite bool_decide_eq_true_2 | by rewrite bool_decide_eq_false_2].
Qed.

Lemma visited_test mask to :
  0 <= to → negb (Z.land (Z.shiftr mask to) 1 =? 0) = visited mask to.
Proof.
  intros Hto. unfold visited.
  change 1 with (Z.ones 1) at 1. rewrite Z.land_ones by lia.
  change (2 ^ 1) with 2. rewrite <- Z.bit0_mod, Z.shiftr_spec by lia.
  rewrite Z.add_0_l. by destruct (Z.testbit mask to).
Qed.

Lemma visited_0 c : visited 0 c = false.
Proof. apply Z.bits_0. Qed.

Lemma filter_length_le {A} (P Q : A → Prop)
    `{∀ x, Decision (P x)} `{∀ x, Decision (Q x)} (l : list A) :
  (∀ x, x ∈ l → P x → Q x) → (length (filter P l) ≤ length (filter Q l))%nat.
Proof.
  induction l as [|x l IH]; intros HPQ; [done|].
  rewrite !filter_cons.
  assert (length (filter P l) ≤ length (filter Q l))%nat
    by (apply IH; intros; apply HPQ; [by right | done]).
  destruct (decide (P x)), (decide (Q x)); simpl; try lia.
  destruct n. apply HPQ; [by left | done].
Qed.

Lemma filter_length_lt {A} (P Q : A → Prop)
    `{∀ x, Decision (P x)} `{∀ x, Decision (Q x)} (l : list A) y :
  (∀ x, x ∈ l → P x → Q x) → y ∈ l → Q y → ¬ P y →
  (length (filter P l) < length (filter Q l))%nat.
Proof.
  intros HPQ Hy HQ HP. induction l as [|x l IH]; [by apply elem_of_nil in Hy|].
  assert (∀ x, x ∈ l → P x → Q x) as HPQ' by (intros; apply HPQ; [by right | done]).
  pose proof (filter_length_le P Q l HPQ').
  rewrite !filter_cons. apply elem_of_cons in Hy as [<-|Hy].
  - rewrite decide_False, decide_True by done. simpl. lia.
  - specialize (IH HPQ' Hy). destruct (decide (P x)), (decide (Q x)); simpl; try lia.
    destruct n. apply HPQ; [by left | done].
Qed.

Lemma free_cells_mark_lt mask to :
  in_grid to → visited mask to = false →
  (length (free_cells (mark mask to)) < length (free_cells mask))%nat.
Proof.
  intros Hto Hv. unfold free_cells. apply filter_length_lt with (y := to).
  - intros x Hx%elem_of_seqZ Hm.
    rewrite visited_mark in Hm by (unfold in_grid; lia || done).
    by apply orb_false_iff in Hm as [? _].
  - apply elem_of_seqZ. unfold in_grid in Hto. lia.
  - done.
  - rewrite visited_mark by done. rewrite bool_decide_eq_true_2 by done.
    by rewrite orb_true_r.
Qed.

Lemma free_cells_mark_bound mask cell :
  in_grid cell → (length (free_cells (mark mask cell)) < 16)%nat.
Proof.
  intros Hc. unfold free_cells.
  change 16%nat with (length (seqZ 0 16)).
  apply (length_filter_lt (λ c, visited (mark mask cell) c = false) (seqZ 0 16) cell).
  - apply elem_of_seqZ. unfold in_grid in Hc. lia.
  - rewrite visited_mark by done. rewrite bool_decide_eq_true_2 by done.
    by rewrite orb_true_r.
Qed.

(** * The adjacency table *)

Lemma build_neighbors_ok : nbr_ok build_neighbors_4x4.
Proof.
  split; [done|].
  apply (bool_decide_eq_true_1 (Forall (Forall in_grid) build_neighbors_4x4)).
  by vm_compute.
Qed.

Lemma nbr_ok_row nbr cell :
  nbr_ok nbr → in_grid cell →
  ∃ row, vec_at nbr cell = Ret row ∧ nbr !! Z.to_nat cell = Some row ∧ Forall in_grid row.
Proof.
  intros [Hlen Hall] Hc. destruct (vec_at_in_range nbr cell) as (row & Hat & Hrow).
  { unfold sizeZ, in_grid in *. lia. }
  exists row. split; [done|]. split; [done|]. eapply Forall_lookup in Hall; eauto.
Qed.

Lemma build_neighbors_adjacent a b row :
  in_grid a → in_grid b →
  build_neighbors_4x4 !! Z.to_nat a = Some row →
  b ∈ row ↔ king_adjacent a b.
Proof.
  intros Ha Hb Hrow.
  assert (adjacency_check = true) as H by (by vm_compute).
  unfold adjacency_check in H. rewrite forallb_forall in H.
  specialize (H a). rewrite forallb_forall in H.
  specialize (H ltac:(apply list_elem_of_In, elem_of_seqZ; unfold in_grid in *; lia) b
                ltac:(apply list_elem_of_In, elem_of_seqZ; unfold in_grid in *; lia)).
  rewrite Hrow in H. simpl in H. apply Bool.eqb_prop in H.
  unfold king_adjacent. rewrite <- H. by rewrite bool_decide_eq_true.
Qed.

(** * The depth-first search *)

Lemma dfs_unfold fuel cell m node board nbr trie cur out :
  dfs_all_words (S fuel) cell m node board nbr trie (cur, out) =
    ch ← vec_at board cell;
    if (char_val ch - 97 <? 0) || (26 <=? char_val ch - 97) then Ret (cur, out) else
    nd ← vec_at (Trie.t trie) node;
    nxt ← vec_at (Trie.next nd) (char_val ch - 97);
    if nxt =? -1 then Ret (cur, out) else
    nd' ← vec_at (Trie.t trie) nxt;
    row ← vec_at nbr cell;
    '(c, o) ← for_each row (visit fuel board nbr trie (mark m cell) nxt)
        (cur ++ [ch],
         if Trie.terminal nd' && (3 <=? sizeZ (cur ++ [ch]))
         then {[cur ++ [ch]]} ∪ out else out);
    c ← pop_back c; Ret (c, o).
Proof. reflexivity. Qed.

Lemma pop_back_snoc s c : pop_back (s ++ [c]) = Ret s.
Proof.
  unfold pop_back. destruct (s ++ [c]) eqn:E.
  - by destruct s.
  - rewrite <- E. by rewrite removelast_last.
Qed.

Lemma visit_in_grid fuel board nbr trie m nxt to st :
  in_grid to →
  visit fuel board nbr trie m nxt to st =
    if visited m to then Ret st
    else dfs_all_words fuel to m nxt board nbr trie st.
Proof.
  unfold in_grid, visit. intros Hto.
  destruct (Z.ltb_spec to 0); [lia|]. destruct (Z.leb_spec 32 to); [lia|].
  simpl. by rewrite visited_test by lia.
Qed.

Lemma vec_at_cases {A} (v : list A) i :
  vec_at v i = Undefined ∨ ∃ x, vec_at v i = Ret x.
Proof.
  unfold vec_at. destruct (i <? 0); [by left|].
  destruct (v !! Z.to_nat i); [right; eauto | by left].
Qed.

(** Case analysis on an access [e]: out of range, or the element [x]. *)
Ltac vec_case e x H :=
  match e with
  | vec_at ?v ?i =>
      let H' := fresh in
      destruct (vec_at_cases v i) as [H' | [x H]];
      [rewrite H'; simpl; first [done | congruence] | rewrite H, ?res_bind_Ret]
  end.

(** ** Termination *)

Lemma for_each_not_OutOfFuel {A S} (l : list A) (body : A → S → res S) s :
  (∀ x s, x ∈ l → body x s ≠ OutOfFuel) → for_each l body s ≠ OutOfFuel.
Proof.
  revert s. induction l as [|x l IH]; intros s Hb; simpl; [done|].
  destruct (body x s) eqn:E; try done.
  - apply IH. intros; apply Hb. by right.
  - exfalso. eapply Hb; [by left | done].
Qed.

Lemma for_each_mono {A S} (l : list A) (body1 body2 : A → S → res S) :
  (∀ x s r, body1 x s = r → r ≠ OutOfFuel → body2 x s = r) →
  ∀ s r, for_each l body1 s = r → r ≠ OutOfFuel → for_each l body2 s = r.
Proof.
  intros Hb. induction l as [|x l IH]; intros s r; simpl; [done|].
  destruct (body1 x s) as [s1| | |] eqn:E; simpl; intros <- Hr; try done.
  - rewrite (Hb _ _ _ E) by done. simpl. by apply IH.
  - by rewrite (Hb _ _ _ E).
  - by rewrite (Hb _ _ _ E).
Qed.

Section termination.
Variables (board : list ascii) (nbr : list (list Z)) (trie : Trie.Trie).
Hypothesis Hboard : length board = 16%nat.
Hypothesis Hnbr : nbr_ok nbr.

Lemma dfs_terminates fuel : ∀ cell m node st,
    (in_grid cell → (length (free_cells (mark m cell)) < fuel)%nat) → (0 < fuel)%nat →
    dfs_all_words fuel cell m node board nbr trie st ≠ OutOfFuel.
Proof.
    induction fuel as [|fuel IH]; intros cell m node [cur out] Hfree Hpos; [lia|].
    rewrite dfs_unfold.
    vec_case (vec_at board cell) ch Hch.
    apply vec_at_Ret in Hch as [Hc0 Hch]. apply lookup_lt_Some in Hch.
    assert (in_grid cell) as Hcell by (unfold in_grid; lia).
    specialize (Hfree Hcell).
    destruct (_ || _); [done|].
    vec_case (vec_at (Trie.t trie) node) nd Hnd.
    vec_case (vec_at (Trie.next nd) (char_val ch - 97)) nxt Hnxt.
    destruct (nxt =? -1); [done|].
    vec_case (vec_at (Trie.t trie) nxt) nd' Hnd'.
    destruct (nbr_ok_row nbr cell Hnbr Hcell) as (row & -> & _ & Hrow).
    rewrite res_bind_Ret.
    match goal with |- context [for_each row ?b ?s] =>
      pose proof (for_each_not_OutOfFuel row b s) as Hloop;
      destruct (for_each row b s) as [[c o]| | |] end; try (simpl; congruence).
    - rewrite res_bind_Ret. cbv beta iota. unfold pop_back. destruct c; simpl; congruence.
    - exfalso. apply Hloop; [|done]. intros to st Hto.
      rewrite Forall_forall in Hrow. specialize (Hrow _ Hto).
      rewrite visit_in_grid by done.
      destruct (visited (mark m cell) to) eqn:Hv; [done|].
      pose proof (free_cells_mark_lt _ _ Hrow Hv).
      apply IH; [intros _|]; lia.
Qed.

Lemma dfs_mono fuel : ∀ cell m node st r,
    dfs_all_words fuel cell m node board nbr trie st = r → r ≠ OutOfFuel →
    dfs_all_words (S fuel) cell m node board nbr trie st = r.
Proof.
    induction fuel as [|fuel IH]; intros cell m node [cur out] r; [by intros <-|].
    rewrite (dfs_unfold (S fuel)), (dfs_unfold fuel).
    vec_case (vec_at board cell) ch Hch.
    destruct (_ || _); [done|].
    vec_case (vec_at (Trie.t trie) node) nd Hnd.
    vec_case (vec_at (Trie.next nd) (char_val ch - 97)) nxt Hnxt.
    destruct (nxt =? -1); [done|].
    vec_case (vec_at (Trie.t trie) nxt) nd' Hnd'.
    vec_case (vec_at nbr cell) row Hrow.
    match goal with |- context [for_each row (visit fuel ?b ?n ?t ?m ?x) ?s] =>
      pose proof (for_each_mono row (visit fuel b n t m x) (visit (S fuel) b n t m x)) as Hloop;
      destruct (for_each row (visit fuel b n t m x) s) as [[c o]| | |] eqn:E end;
      intros <- Hr; try done.
    all: erewrite Hloop; [done| |done|done].
    all: intros to st r; unfold visit; repeat case_match; try done; apply IH.
Qed.

Lemma dfs_fuel_irrelevant fuel cell m node st :
    in_grid cell → (16 ≤ fuel)%nat →
    dfs_all_words fuel cell m node board nbr trie st =
    dfs_all_words 16 cell m node board nbr trie st.
Proof.
    intros Hcell Hfuel.
    assert (∀ n, dfs_all_words (n + 16) cell m node board nbr trie st =
                 dfs_all_words 16 cell m node board nbr trie st) as H.
    { induction n as [|n IHn]; [done|]. simpl Nat.add.
      apply dfs_mono; [done|].
      apply dfs_terminates; [|lia]. intros _. by apply free_cells_mark_bound. }
    replace fuel with ((fuel - 16) + 16)%nat by lia. apply H.
Qed.
End termination.

(** ** What the search finds *)

Section search.
Variables (board : list ascii) (nbr : list (list Z)) (trie : Trie.Trie).
Hypothesis Hboard : length board = 16%nat.
Hypothesis Hnbr : nbr_ok nbr.
Hypothesis Hwf : wf_trie trie.

Local Abbreviation tv := (Trie.t trie).

Lemma found_at_pruned m cell node cur w ch :
    board !! Z.to_nat cell = Some ch → child tv node ch = None →
    ¬ found_at board nbr tv m cell node cur w.
Proof.
    intros Hch Hc (s & e & _ & Ht & _). inversion Ht; simplify_eq.
Qed.

Lemma found_at_step m cell node cur w ch nxt row :
    in_grid cell → board !! Z.to_nat cell = Some ch → child tv node ch = Some nxt →
    nbr !! Z.to_nat cell = Some row →
    found_at board nbr tv m cell node cur w ↔
      (w = cur ++ [ch] ∧ is_terminal tv nxt = true ∧ (3 ≤ length w)%nat) ∨
      (∃ to, to ∈ row ∧ visited (mark m cell) to = false ∧
             found_at board nbr tv (mark m cell) to nxt (cur ++ [ch]) w).
Proof.
    intros Hcell Hch Hc Hrow. split.
    - intros (s & e & -> & Ht & Hterm & Hlen). inversion Ht; simplify_eq.
      + by left.
      + right. exists to. split; [done|]. split; [done|].
        exists s0, e. by rewrite <- app_assoc.
    - intros [(-> & Hterm & Hlen)|(to & Hto & Hv & s & e & -> & Ht & Hterm & Hlen)].
      + exists [ch], nxt. split; [done|]. split; [by constructor | done].
      + exists (ch :: s), e. rewrite <- app_assoc in *. split; [done|].
        split; [by econstructor | done].
Qed.

Lemma dfs_spec fuel : ∀ cell m node cur out,
    in_grid cell → 0 <= node < sizeZ tv →
    (length (free_cells (mark m cell)) < fuel)%nat →
    ∃ out', dfs_all_words fuel cell m node board nbr trie (cur, out) = Ret (cur, out') ∧
            ∀ w, w ∈ out' ↔ w ∈ out ∨ found_at board nbr tv m cell node cur w.
Proof.
    induction fuel as [|fuel IH]; intros cell m node cur out Hcell Hnode Hfree; [lia|].
    rewrite dfs_unfold.
    destruct (vec_at_in_range board cell) as (ch & -> & Hch);
      [unfold sizeZ, in_grid in *; lia|].
    rewrite res_bind_Ret.
    destruct (vec_at_in_range tv node Hnode) as (nd & Hnd & Hnd').
    pose proof (wf_nodes_lookup _ _ _ Hwf Hnd') as Hwn.
    destruct (letter_index ch) as [k|] eqn:Hk.
    2:{ assert (((char_val ch - 97 <? 0) || (26 <=? char_val ch - 97)) = true) as ->.
        { unfold letter_index in Hk.
          destruct (Z.leb_spec 0 (char_val ch - 97)), (Z.ltb_spec (char_val ch - 97) 26);
            simpl in Hk; try done.
          - destruct (Z.ltb_spec (char_val ch - 97) 0), (Z.leb_spec 26 (char_val ch - 97)); simpl; lia || done.
          - destruct (Z.ltb_spec (char_val ch - 97) 0), (Z.leb_spec 26 (char_val ch - 97)); simpl; lia || done.
          - destruct (Z.ltb_spec (char_val ch - 97) 0), (Z.leb_spec 26 (char_val ch - 97)); simpl; lia || done. }
        exists out. split; [done|]. intros w. split; [auto|]. intros [?|Hf]; [done|].
        exfalso. eapply found_at_pruned; [done| |done]. unfold child. by rewrite Hk. }
    pose proof (proj1 (letter_index_Some _ _) Hk) as [Hkc Hkr]. rewrite <- Hkc.
    assert (((k <? 0) || (26 <=? k)) = false) as ->.
    { destruct (Z.ltb_spec k 0), (Z.leb_spec 26 k); simpl; lia || done. }
    rewrite Hnd, res_bind_Ret.
    destruct (wf_node_has_slot _ _ _ Hwn Hkr) as [e He].
    rewrite (vec_at_lookup _ _ _ (proj1 Hkr) He), res_bind_Ret.
    destruct (Z.eqb_spec e (-1)) as [->|Hne].
    { exists out. split; [done|]. intros w. split; [auto|]. intros [?|Hf]; [done|].
      exfalso. eapply found_at_pruned; [done| |done].
      unfold child. rewrite Hk. simpl.
      assert (node_at tv node = Some nd) as -> by (apply node_at_Some; split; [lia|done]).
      simpl. by rewrite He. }
    assert (child tv node ch = Some e) as Hchild.
    { apply child_Some. exists k, nd. repeat split; try done; lia. }
    pose proof (wf_child _ _ _ _ Hwf Hchild) as Hrange.
    destruct (vec_at_in_range tv e Hrange) as (nd1 & -> & Hnd1).
    rewrite res_bind_Ret.
    assert (is_terminal tv e = Trie.terminal nd1) as Hterm.
    { unfold is_terminal.
      assert (node_at tv e = Some nd1) as -> by (apply node_at_Some; split; [lia|done]).
      done. }
    destruct (nbr_ok_row nbr cell Hnbr Hcell) as (row & -> & Hrow & Hgrid).
    rewrite res_bind_Ret.
    set (cur' := cur ++ [ch]). set (m' := mark m cell).
    assert (∀ l out1, Forall in_grid l →
      ∃ out2, for_each l (visit fuel board nbr trie m' e) (cur', out1) = Ret (cur', out2) ∧
              ∀ w, w ∈ out2 ↔ w ∈ out1 ∨
                   ∃ to, to ∈ l ∧ visited m' to = false ∧
                         found_at board nbr tv m' to e cur' w) as Hloop.
    { induction l as [|to l IHl]; intros out1 Hl.
      - exists out1. split; [done|]. intros w. split; [auto|].
        intros [?|(to & Hto & _)]; [done|]. by apply elem_of_nil in Hto.
      - apply Forall_cons in Hl as [Hto Hl]. cbn [for_each].
        rewrite visit_in_grid by done.
        destruct (visited m' to) eqn:Hv.
        + rewrite res_bind_Ret. destruct (IHl out1 Hl) as (out2 & -> & Hout2).
          exists out2. split; [done|]. intros w. rewrite Hout2.
          split; (intros [?|(to' & Hin & Hv' & Hf)]; [by left | right]).
          * exists to'. split; [by right | done].
          * apply elem_of_cons in Hin as [->|Hin]; [congruence|]. by exists to'.
        + destruct (IH to m' e cur' out1 Hto Hrange) as (out1' & -> & Hout1').
          { pose proof (free_cells_mark_lt _ _ Hto Hv). unfold m' in *. lia. }
          rewrite res_bind_Ret. destruct (IHl out1' Hl) as (out2 & -> & Hout2).
          exists out2. split; [done|]. intros w. rewrite Hout2, Hout1'.
          split.
          * intros [[?|?]|(to' & Hin & Hv' & Hf)]; [by left | right..].
            -- exists to. split; [by left | done].
            -- exists to'. split; [by right | done].
          * intros [?|(to' & [->|Hin]%elem_of_cons & Hv' & Hf)]; [by left; left | |].
            -- left. by right.
            -- right. by exists to'. }
    match goal with |- context [for_each row _ (_, ?o)] =>
      destruct (Hloop row o Hgrid) as (out2 & -> & Hout2) end.
    rewrite res_bind_Ret. cbv beta iota. unfold cur'. rewrite pop_back_snoc, res_bind_Ret.
    exists out2. split; [done|]. intros w. rewrite Hout2.
    rewrite (found_at_step m cell node cur w ch e row) by done.
    fold cur' m'. rewrite Hterm.
    assert (3 <=? sizeZ cur' = bool_decide (3 ≤ length cur')%nat) as ->.
    { unfold sizeZ. destruct (Z.leb_spec 3 (Z.of_nat (length cur')));
        [rewrite bool_decide_eq_true_2 | rewrite bool_decide_eq_false_2]; lia || done. }
    destruct (Trie.terminal nd1); simpl.
    - case_bool_decide.
      + rewrite elem_of_union, elem_of_singleton. split; [|naive_solver].
        intros [[->|?]|?]; auto.
      + split; [naive_solver|]. intros [?|[(-> & _ & ?)|?]]; auto. lia.
    - split; [naive_solver|]. intros [?|[(_ & ? & _)|?]]; auto. done.
Qed.

(** A letter outside [a]..[z], or without a child in the trie: the call
    returns at once, with nothing changed. *)
Lemma dfs_prune cell m node st ch :
    0 <= node < sizeZ tv →
    board !! Z.to_nat cell = Some ch → 0 <= cell → child tv node ch = None →
    dfs_all_words 1 cell m node board nbr trie st = Ret st.
Proof.
    intros Hnode Hch Hcell Hc. destruct st as [cur out]. rewrite dfs_unfold.
    rewrite (vec_at_lookup _ _ _ Hcell Hch), res_bind_Ret.
    destruct (Z.ltb_spec (char_val ch - 97) 0); [done|].
    destruct (Z.leb_spec 26 (char_val ch - 97)); [done|]. simpl.
    destruct (vec_at_in_range tv node Hnode) as (nd & -> & Hnd).
    rewrite res_bind_Ret.
    pose proof (wf_nodes_lookup _ _ _ Hwf Hnd) as Hwn.
    destruct (wf_node_has_slot _ _ (char_val ch - 97) Hwn) as [e He]; [lia|].
    rewrite (vec_at_lookup _ _ e) by (lia || done). rewrite res_bind_Ret.
    destruct (Z.eqb_spec e (-1)); [done|]. exfalso.
    assert (child tv node ch = Some e); [|congruence].
    apply child_Some. exists (char_val ch - 97), nd.
    split; [apply letter_index_Some; lia|]. repeat split; try done; lia.
Qed.
End search.

(** ** Trails are self-avoiding walks *)

Section trails.
Variables (board : list ascii) (tv : list Trie.Node).

Local Abbreviation nbr := build_neighbors_4x4.

Lemma visited_mark_self m cell : in_grid cell → visited (mark m cell) cell = true.
Proof.
    intros Hc. rewrite visited_mark by done.
    rewrite bool_decide_eq_true_2 by done. apply orb_true_r.
Qed.

Lemma visited_mark_false m cell c :
    in_grid cell → in_grid c →
    visited (mark m cell) c = false ↔ visited m c = false ∧ c ≠ cell.
Proof.
    intros Hcell Hc. rewrite visited_mark by done.
    rewrite orb_false_iff, bool_decide_eq_false. done.
Qed.

Lemma trail_path m cell node s e :
    trail board nbr tv m cell node s e →
    ∃ p', Forall in_grid (cell :: p') ∧ NoDup (cell :: p') ∧
          chain king_adjacent (cell :: p') ∧
          (∀ c, c ∈ p' → visited m c = false) ∧
          spells board (cell :: p') s ∧ walk tv node s = Some e.
Proof.
    induction 1 as [m cell node ch nxt Hcell Hch Hc
                   |m cell node ch nxt row to s e Hcell Hch Hc Hrow Hto Hv Ht IH].
    - exists []. split; [by apply Forall_singleton|]. split; [apply NoDup_singleton|].
      split; [done|]. split; [by intros c ?%elem_of_nil|].
      split; [by apply Forall2_cons|]. simpl. by rewrite Hc.
    - destruct IH as (p' & Hgrid & Hnd & Hchain & Hfree & Hsp & Hw).
      exists (to :: p').
      assert (∀ c, c ∈ to :: p' → visited (mark m cell) c = false) as Hall.
      { intros c [->|Hin]%elem_of_cons; auto. }
      split; [by constructor|]. split; [|split; [|split; [|split]]].
      + apply NoDup_cons. split; [|done]. intros Hin.
        apply Hall in Hin. by rewrite visited_mark_self in Hin.
      + split; [|done]. eapply build_neighbors_adjacent; [done| |done..].
        by apply Forall_cons in Hgrid as [? _].
      + intros c Hin. rewrite Forall_forall in Hgrid.
        specialize (Hall _ Hin). apply visited_mark_false in Hall as [? _]; auto.
      + by constructor.
      + simpl. by rewrite Hc.
Qed.

Lemma path_trail s : ∀ m cell node p' e,
    Forall in_grid (cell :: p') → NoDup (cell :: p') →
    chain king_adjacent (cell :: p') →
    (∀ c, c ∈ p' → visited m c = false) →
    spells board (cell :: p') s → walk tv node s = Some e →
    trail board nbr tv m cell node s e.
Proof.
    induction s as [|ch s IH]; intros m cell node p' e Hgrid Hnd Hchain Hfree Hsp Hw.
    - inversion Hsp.
    - apply Forall2_cons in Hsp as [Hch Hsp]. simpl in Hw.
      destruct (child tv node ch) as [nxt|] eqn:Hc; [|done]. simpl in Hw.
      apply Forall_cons in Hgrid as [Hcell Hgrid].
      apply NoDup_cons in Hnd as [Hnotin Hnd].
      destruct p' as [|to p''].
      + inv Hsp. simpl in Hw. simplify_eq.
        by constructor.
      + destruct Hchain as [Hadj Hchain].
        pose proof Hgrid as [Hto Hgrid']%Forall_cons.
        destruct (nbr_ok_row nbr cell build_neighbors_ok Hcell) as (row & _ & Hrow & _).
        apply (trail_step board nbr tv m cell node ch nxt row to); try done.
        * apply (build_neighbors_adjacent cell to row); done.
        * apply visited_mark_false; [done..|]. split; [apply Hfree; by left|].
          intros ->. apply Hnotin. by left.
        * eapply IH; try done.
          intros c Hin. rewrite Forall_forall in Hgrid'.
          apply visited_mark_false; [done|by apply Hgrid'|].
          split; [apply Hfree; by right|]. intros ->. apply Hnotin. by right.
Qed.

Lemma accepts_true w :
    accepts tv w = true ↔ ∃ e, walk tv 0 w = Some e ∧ is_terminal tv e = true.
Proof.
    unfold accepts. destruct (walk tv 0 w) as [e|]; simpl; naive_solver.
Qed.

(** The words a search from every cell finds. *)
Lemma found_spellable w :
    (∃ i, in_grid i ∧ found_at board nbr tv 0 i 0 [] w) ↔
    (3 ≤ length w)%nat ∧ accepts tv w = true ∧ spellable board w.
Proof.
    split.
    - intros (i & Hi & s & e & -> & Ht & Hterm & Hlen). simpl in *.
      apply trail_path in Ht as (p' & Hgrid & Hnd & Hchain & _ & Hsp & Hw).
      split; [done|]. split; [apply accepts_true; eauto|].
      exists (i :: p'). split; [|done]. by split.
    - intros (Hlen & (e & Hw & Hterm)%accepts_true & p & (Hne & Hgrid & Hnd & Hchain) & Hsp).
      destruct p as [|i p']; [done|]. exists i.
      split; [by apply Forall_cons in Hgrid as [? _]|].
      exists w, e. split; [done|]. split; [|done].
      eapply path_trail; try done. intros; apply visited_0.
Qed.
End trails.

(** ** Boards *)

Lemma sizeZ_eqb {A} (l : list A) n :
  (sizeZ l =? Z.of_nat n) = bool_decide (length l = n).
Proof.
  unfold sizeZ. destruct (Z.eqb_spec (Z.of_nat (length l)) (Z.of_nat n));
    [rewrite bool_decide_eq_true_2 | rewrite bool_decide_eq_false_2]; lia || done.
Qed.

Lemma for_each_cells_length (seq : list py_object) : ∀ b board,
  for_each seq (λ o b,
    cell ← cast_string o;
    match cell with
    | [c] =>
        if isalpha c then Ret (b ++ [tolower c])
        else Throw (runtime_error "board list must contain 16 single letters"%string)
    | _ => Throw (runtime_error "board list must contain 16 single letters"%string)
    end) b = Ret board →
  length board = (length b + length seq)%nat.
Proof.
  induction seq as [|o seq IH]; intros b board; simpl.
  - intros [= <-]. lia.
  - destruct o as [s| |]; simpl; try done.
    destruct s as [|c [|]]; try done. destruct (isalpha c); [|done]. simpl.
    intros ->%IH. rewrite length_app. simpl. lia.
Qed.

Lemma parse_board_length board_obj board :
  parse_board_any board_obj = Ret board → length board = 16%nat.
Proof.
  destruct board_obj as [s|seq|]; simpl; [| |done].
  - change 16 with (Z.of_nat 16). rewrite sizeZ_eqb. case_bool_decide; simpl; [|done].
    intros [= <-]. rewrite length_take. lia.
  - change 16 with (Z.of_nat 16). change 4 with (Z.of_nat 4). rewrite !sizeZ_eqb.
    destruct (bool_decide (length seq = 4%nat) && _).
    + destruct (for_each _ _ _) as [t| | |]; simpl; try done.
      rewrite sizeZ_eqb. case_bool_decide; simpl; [|done].
      intros [= <-]. rewrite length_take. lia.
    + case_bool_decide; [|done]. intros ->%for_each_cells_length. simpl. lia.
Qed.

(** * The order of the result *)

Lemma string_lt_spec a : ∀ b, string_lt a b = true ↔ lex_lt a b.
Proof.
  induction a as [|x a IH]; intros [|y b]; simpl.
  - split; [done | inversion 1].
  - split; [constructor | done].
  - split; [done | inversion 1].
  - destruct (Z.ltb_spec (uchar_val x) (uchar_val y)) as [Hxy|Hxy].
    { split; [by constructor | done]. }
    destruct (Z.ltb_spec (uchar_val y) (uchar_val x)) as [Hyx|Hyx].
    { split; [done|]. inversion 1; simplify_eq; lia. }
    assert (x = y) as -> by (apply uchar_val_inj; lia).
    rewrite IH. split; [by constructor|]. inversion 1; simplify_eq; [lia | done].
Qed.

Lemma lex_lt_irrefl a : ¬ lex_lt a a.
Proof. induction a as [|x a IH]; inversion 1; simplify_eq; [lia | done]. Qed.

Lemma lex_lt_trans a b c : lex_lt a b → lex_lt b c → lex_lt a c.
Proof.
  intros Hab. revert c. induction Hab as [y b|x a y b Hxy|x a b Hab IH]; intros c Hbc.
  - inversion Hbc; constructor.
  - inversion Hbc; simplify_eq; apply lex_lt_head; lia.
  - inversion Hbc; simplify_eq; [by apply lex_lt_head|]. apply lex_lt_tail. by apply IH.
Qed.

Lemma lex_lt_trichotomy a : ∀ b, lex_lt a b ∨ a = b ∨ lex_lt b a.
Proof.
  induction a as [|x a IH]; intros [|y b].
  - by right; left.
  - left. constructor.
  - right; right. constructor.
  - destruct (Z.lt_trichotomy (uchar_val x) (uchar_val y)) as [?|[Heq|?]].
    + left. by constructor.
    + apply uchar_val_inj in Heq as ->.
      destruct (IH b) as [?|[->|?]]; [left | by right; left | right; right]; by constructor.
    + right; right. by constructor.
Qed.

Lemma before_irrefl a : ¬ before a a.
Proof. intros [?|[_ ?%lex_lt_irrefl]]; [lia | done]. Qed.

Lemma before_trans a b c : before a b → before b c → before a c.
Proof.
  intros [?|[? ?]] [?|[? ?]]; try (left; lia).
  right. split; [lia|]. by eapply lex_lt_trans.
Qed.

Lemma before_trichotomy a b : before a b ∨ a = b ∨ before b a.
Proof.
  destruct (lt_eq_lt_dec (length a) (length b)) as [[?|Heq]|?].
  - right; right. by left.
  - destruct (lex_lt_trichotomy a b) as [?|[?|?]].
    + left. by right.
    + by right; left.
    + right; right. by right.
  - left. by left.
Qed.

Lemma comp_spec a b : Dictionary.comp a b = true ↔ before a b.
Proof.
  unfold Dictionary.comp, before, sizeZ.
  destruct (Z.eqb_spec (Z.of_nat (length a)) (Z.of_nat (length b))) as [Heq|Hne]; simpl.
  - rewrite string_lt_spec. split; [intros; right; split; [lia | done]|].
    intros [?|[_ ?]]; [lia | done].
  - rewrite Z.ltb_lt. split; [intros; left; lia|]. intros [?|[? _]]; lia.
Qed.

Lemma not_after_comp a b : not_after Dictionary.comp a b ↔ before a b ∨ a = b.
Proof.
  unfold not_after. rewrite <- not_true_iff_false, comp_spec. split.
  - intros Hn. destruct (before_trichotomy a b) as [?|[?|?]]; auto. done.
  - intros [Hab| ->] Hba; [|by apply before_irrefl in Hba].
    eapply before_irrefl, before_trans; eauto.
Qed.

Global Instance not_after_comp_trans : Transitive (not_after Dictionary.comp).
Proof.
  intros a b c. rewrite !not_after_comp.
  intros [?| ->] [?| ->]; auto. left. by eapply before_trans.
Qed.

Global Instance not_after_comp_total : Total (not_after Dictionary.comp).
Proof.
  intros a b. rewrite !not_after_comp.
  destruct (before_trichotomy a b) as [?|[?|?]]; auto.
Qed.

Lemma strict_of_NoDup l :
  NoDup l → StronglySorted (not_after Dictionary.comp) l → StronglySorted before l.
Proof.
  induction 1 as [|x l Hx Hnd IH]; intros Hs; [constructor|].
  apply StronglySorted_inv in Hs as [Hs Hall]. constructor; [by apply IH|].
  rewrite Forall_forall in Hall. apply Forall_forall. intros y Hy.
  destruct (proj1 (not_after_comp x y) (Hall y Hy)) as [?| ->]; done.
Qed.

Lemma std_sort_sorted l :
  NoDup l →
  std_sort Dictionary.comp l ≡ₚ l ∧ NoDup (std_sort Dictionary.comp l) ∧
  StronglySorted before (std_sort Dictionary.comp l).
Proof.
  intros Hnd. unfold std_sort.
  pose proof (merge_sort_Permutation (not_after Dictionary.comp) l) as Hp.
  assert (NoDup (merge_sort (not_after Dictionary.comp) l)) as Hnd' by by rewrite Hp.
  split; [done|]. split; [done|].
  apply strict_of_NoDup; [done|]. apply StronglySorted_merge_sort; apply _.
Qed.

(** A list in the order of [solve] is determined by its elements: neither
    the iteration order of the set nor the sorting algorithm matters. *)
Lemma before_sorted_unique l1 l2 :
  StronglySorted before l1 → StronglySorted before l2 → l1 ≡ₚ l2 → l1 = l2.
Proof.
  apply StronglySorted_unique_strong. intros x y _ _ Hxy Hyx.
  destruct (before_irrefl x). by eapply before_trans.
Qed.

(** * The total score does not overflow *)

Lemma word_score_bounds n :
  (n ≤ 16)%nat → 0 <= word_score (Z.of_nat n) <= 5400.
Proof.
  intros Hn. split.
  - change 0 with (word_score 0). apply word_score_mono; unfold score_max_len; lia.
  - change 5400 with (word_score 16). apply word_score_mono; unfold score_max_len; lia.
Qed.

Lemma total_no_wrap words : ∀ acc,
  Forall (λ w : str, (length w ≤ 16)%nat) words →
  0 <= acc → acc + sizeZ words * 5400 < 2 ^ 63 →
  foldl (λ total w, to_llong (total + word_score (to_int (sizeZ w)))) acc words =
  acc + score_sum words.
Proof.
  induction words as [|w words IH]; intros acc Hlen Hacc Hbound; simpl; [lia|].
  apply Forall_cons in Hlen as [Hw Hlen]. rewrite sizeZ_cons in Hbound.
  pose proof (word_score_bounds _ Hw) as Hs. pose proof (sizeZ_nonneg words).
  rewrite to_int_id by (unfold INT_MIN, INT_MAX, sizeZ; lia).
  change (sizeZ w) with (Z.of_nat (length w)). rewrite to_llong_id by lia.
  rewrite IH by (done || lia). lia.
Qed.

Lemma calls_bound_nonneg fuel : 0 <= calls_bound fuel.
Proof. induction fuel; simpl; lia. Qed.

Lemma size_insert_le (w : str) (out : gset str) :
  Z.of_nat (size ({[w]} ∪ out)) <= Z.of_nat (size out) + 1.
Proof.
  rewrite (comm_L (∪)), size_union_alt.
  pose proof (subseteq_size ({[w]} ∖ out) {[w]} ltac:(set_solver)) as H.
  rewrite size_singleton in H. lia.
Qed.

Lemma for_each_size {A} (l : list A) (body : A → dfs_state → res dfs_state) B :
  0 <= B →
  (∀ x st st', body x st = Ret st' → Z.of_nat (size st'.2) <= Z.of_nat (size st.2) + B) →
  ∀ st st', for_each l body st = Ret st' →
            Z.of_nat (size st'.2) <= Z.of_nat (size st.2) + sizeZ l * B.
Proof.
  intros HB Hbody. induction l as [|x l IH]; intros st st'; simpl.
  - intros [= <-]. unfold sizeZ. simpl. lia.
  - destruct (body x st) as [st1| | |] eqn:E; simpl; try done.
    intros H%IH. apply Hbody in E. rewrite sizeZ_cons. lia.
Qed.

Lemma build_neighbors_short : rows_short build_neighbors_4x4.
Proof. unfold rows_short. by apply (bool_decide_eq_true_1 (Forall _ _)); vm_compute. Qed.

Lemma dfs_size board nbr trie fuel : ∀ cell m node st st',
  rows_short nbr →
  dfs_all_words fuel cell m node board nbr trie st = Ret st' →
  Z.of_nat (size st'.2) <= Z.of_nat (size st.2) + calls_bound fuel.
Proof.
  induction fuel as [|fuel IH]; intros cell m node [cur out] st' Hshort; [done|].
  rewrite dfs_unfold. pose proof (calls_bound_nonneg fuel) as Hcb.
  vec_case (vec_at board cell) ch Hch.
  destruct (_ || _); [intros [= <-]; simpl; lia|].
  vec_case (vec_at (Trie.t trie) node) nd Hnd.
  vec_case (vec_at (Trie.next nd) (char_val ch - 97)) nxt Hnxt.
  destruct (nxt =? -1); [intros [= <-]; simpl; lia|].
  vec_case (vec_at (Trie.t trie) nxt) nd' Hnd'.
  vec_case (vec_at nbr cell) row Hrow.
  match goal with |- context [for_each row ?b ?s] =>
    pose proof (for_each_size row b (calls_bound fuel) Hcb) as Hloop;
    destruct (for_each row b s) as [[c o]| | |] eqn:E end; try done.
  rewrite res_bind_Ret. cbv beta iota.
  destruct (pop_back c) as [c'| | |]; simpl; try done. intros [= <-].
  apply Hloop in E.
  2:{ intros to st st'. unfold visit. destruct (_ || _); [done|].
      destruct (negb _); [intros [= <-]; lia | intros Hrec; by eapply IH]. }
  simpl in *. apply vec_at_Ret in Hrow as [_ Hrow].
  eapply Forall_lookup in Hshort; [|done]. simpl in Hshort.
  assert (sizeZ row <= 8) by (unfold sizeZ; lia).
  match type of E with _ <= Z.of_nat (size ?o1) + _ =>
    assert (Z.of_nat (size o1) <= Z.of_nat (size out) + 1) end.
  { case_match; [apply size_insert_le | lia]. }
  nia.
Qed.

(** * [Dictionary::solve] *)

Section solve.
Variables (board : list ascii) (trie : Trie.Trie) (fuel : nat).
Hypothesis Hboard : length board = 16%nat.
Hypothesis Hwf : wf_trie trie.
Hypothesis Hfuel : (16 ≤ fuel)%nat.

Local Abbreviation nbr := build_neighbors_4x4.
Local Abbreviation tv := (Trie.t trie).

Lemma dfs_total cell m node cur out :
    in_grid cell → 0 <= node < sizeZ tv →
    ∃ out', dfs_all_words fuel cell m node board nbr trie (cur, out) = Ret (cur, out') ∧
            (∀ w, w ∈ out' ↔ w ∈ out ∨ found_at board nbr tv m cell node cur w) ∧
            Z.of_nat (size out') <= Z.of_nat (size out) + calls_bound 16.
Proof.
    intros Hcell Hnode.
    destruct (dfs_spec board nbr trie Hboard build_neighbors_ok Hwf fuel cell m node cur out)
      as (out' & Hdfs & Hout'); [done.. | |].
    { pose proof (free_cells_mark_bound m cell Hcell). lia. }
    exists out'. split; [done|]. split; [done|].
    rewrite (dfs_fuel_irrelevant board nbr trie Hboard build_neighbors_ok) in Hdfs by done.
    by apply dfs_size in Hdfs; [|apply build_neighbors_short].
Qed.

Lemma search_from l : ∀ out,
    Forall in_grid l →
    ∃ out', for_each l (λ i st, dfs_all_words fuel i 0 0 board nbr trie st) ([], out)
              = Ret ([], out') ∧
            (∀ w, w ∈ out' ↔ w ∈ out ∨ ∃ i, i ∈ l ∧ found_at board nbr tv 0 i 0 [] w) ∧
            Z.of_nat (size out') <= Z.of_nat (size out) + sizeZ l * calls_bound 16.
Proof.
    induction l as [|i l IH]; intros out Hl.
    - exists out. split; [done|]. split; [|unfold sizeZ; simpl; lia].
      intros w. split; [auto|]. intros [?|(i & Hi & _)]; [done|]. by apply elem_of_nil in Hi.
    - apply Forall_cons in Hl as [Hi Hl]. cbn [for_each].
      destruct (dfs_total i 0 0 [] out Hi (wf_nodes_root _ Hwf)) as (out1 & -> & Hout1 & Hsz1).
      rewrite res_bind_Ret. destruct (IH out1 Hl) as (out' & -> & Hout' & Hsz').
      exists out'. split; [done|]. split; [|rewrite sizeZ_cons; lia].
      intros w. rewrite Hout', Hout1. split.
      + intros [[?|?]|(j & Hj & Hf)]; [by left | right..].
        * exists i. split; [by left | done].
        * exists j. split; [by right | done].
      + intros [?|(j & [->|Hj]%elem_of_cons & Hf)]; [by left; left | |].
        * left. by right.
        * right. by exists j.
Qed.

Lemma search_all :
    ∃ found, for_each (seqZ 0 16) (λ i st, dfs_all_words fuel i 0 0 board nbr trie st) ([], ∅)
               = Ret ([], found) ∧
             (∀ w, w ∈ found ↔
                   (3 ≤ length w)%nat ∧ contains trie w ∧ spellable board w) ∧
             Z.of_nat (size found) <= 16 * calls_bound 16.
Proof.
    destruct (search_from (seqZ 0 16) ∅) as (found & Hrun & Hfound & Hsz).
    { apply Forall_forall. intros i Hi%elem_of_seqZ. unfold in_grid. lia. }
    exists found. split; [done|]. split; [|by rewrite size_empty in Hsz].
    intros w. unfold contains. rewrite Hfound, <- found_spellable. split.
    - intros [?%not_elem_of_empty|(i & Hi%elem_of_seqZ & Hf)]; [done|].
      exists i. split; [unfold in_grid; lia | done].
    - intros (i & Hi & Hf). right. exists i. split; [|done].
      apply elem_of_seqZ. unfold in_grid in Hi. lia.
Qed.
End solve.

Lemma spellable_length board w : spellable board w → (length w ≤ 16)%nat.
Proof.
  intros (p & (_ & Hgrid & Hnd & _) & Hsp). rewrite <- (Forall2_length _ _ _ Hsp).
  change 16%nat with (length (seqZ 0 16)). apply submseteq_length, NoDup_submseteq; [done|].
  intros x Hx. rewrite Forall_forall in Hgrid. apply elem_of_seqZ.
  specialize (Hgrid x Hx). unfold in_grid in Hgrid. lia.
Qed.

Lemma solve_spec fuel d board_obj board :
  wf_trie (Dictionary.trie d) → Dictionary.nbr d = build_neighbors_4x4 →
  parse_board_any board_obj = Ret board → (16 ≤ fuel)%nat →
  ∃ words, Dictionary.solve fuel d board_obj = Ret (words, score_sum words) ∧
           NoDup words ∧ StronglySorted before words ∧
           ∀ w, w ∈ words ↔
                (3 ≤ length w)%nat ∧ contains (Dictionary.trie d) w ∧ spellable board w.
Proof.
  intros Hwf Hnbr Hparse Hfuel. unfold Dictionary.solve.
  rewrite Hparse, res_bind_Ret, Hnbr.
  destruct (search_all board (Dictionary.trie d) fuel (parse_board_length _ _ Hparse) Hwf Hfuel)
    as (found & -> & Hfound & Hsz).
  rewrite res_bind_Ret. cbv beta iota.
  destruct (std_sort_sorted (elements found) (NoDup_elements found)) as (Hperm & Hnd & Hsorted).
  set (words := std_sort Dictionary.comp (elements found)) in *.
  assert (∀ w, w ∈ words ↔
            (3 ≤ length w)%nat ∧ contains (Dictionary.trie d) w ∧ spellable board w) as Hwords.
  { intros w. by rewrite Hperm, elem_of_elements. }
  exists words. split; [|done]. do 2 f_equal.
  rewrite total_no_wrap; [lia| |lia|].
  - apply Forall_forall. intros w (_ & _ & Hs)%Hwords. by eapply spellable_length.
  - unfold sizeZ. rewrite Hperm.
    change (length (elements found)) with (size found).
    assert (calls_bound 16 = 40210710958665) as Hcb by (by vm_compute).
    rewrite Hcb in Hsz. change (2 ^ 63) with 9223372036854775808. lia.
Qed.

(** * Theorems *)

(** C1: for a dictionary built from a word list and a valid board, [solve]
    returns, each once, exactly the strings of length at least 3 that are
    present in the trie and spelled by a self-avoiding walk over
    king-move-adjacent cells; the strings present in the trie are the
    accepted words of the list. *)
Theorem solve_finds_exactly_the_words
    (fs : str → option str) (dict_path content : str)
    (board_obj : py_object) (board : list ascii) (fuel : nat) :
  fs dict_path = Some content → sizeZ content < INT_MAX →
  parse_board_any board_obj = Ret board → (16 ≤ fuel)%nat →
  ∃ d words total,
    Dictionary.new fs dict_path = Ret d ∧
    Dictionary.solve fuel d board_obj = Ret (words, total) ∧
    NoDup words ∧
    (∀ w, w ∈ words ↔
          (3 ≤ length w)%nat ∧ contains (Dictionary.trie d) w ∧ spellable board w) ∧
    (∀ w, contains (Dictionary.trie d) w ↔ dictionary_word content w).
Proof.
  intros Hfs Hsize Hparse Hfuel.
  destruct (Dictionary_new_spec fs dict_path content Hfs Hsize)
    as (d & Hnew & Hnbr & Hwf & _ & Hcontains).
  destruct (solve_spec fuel d board_obj board Hwf Hnbr Hparse Hfuel)
    as (words & Hsolve & Hnd & _ & Hwords).
  by exists d, words, (score_sum words).
Qed.

Lemma solve_finds_exactly_the_words_witness :
  ∃ d words total,
    Dictionary.new example_fs (lit "words.txt") = Ret d ∧
    Dictionary.solve 16 d (PyStr (lit "catsxxxxxxxxxxxx")) = Ret (words, total) ∧
    NoDup words ∧
    (∀ w, w ∈ words ↔
          (3 ≤ length w)%nat ∧ contains (Dictionary.trie d) w ∧
          spellable (lit "catsxxxxxxxxxxxx") w) ∧
    (∀ w, contains (Dictionary.trie d) w ↔ dictionary_word example_file w).
Proof.
  apply (solve_finds_exactly_the_words example_fs (lit "words.txt") example_file
           (PyStr (lit "catsxxxxxxxxxxxx")) (lit "catsxxxxxxxxxxxx") 16).
  - reflexivity.
  - reflexivity.
  - reflexivity.
  - lia.
Defined.

(** C5: the words [solve] returns are in descending length and, at equal
    length, in ascending lexical order, and the total is the sum of
    [word_score] of the lengths of the returned words, each counted once. *)
Theorem solve_sorted_and_scored
    (fs : str → option str) (dict_path content : str)
    (board_obj : py_object) (board : list ascii) (fuel : nat) :
  fs dict_path = Some content → sizeZ content < INT_MAX →
  parse_board_any board_obj = Ret board → (16 ≤ fuel)%nat →
  ∃ d words total,
    Dictionary.new fs dict_path = Ret d ∧
    Dictionary.solve fuel d board_obj = Ret (words, total) ∧
    StronglySorted before words ∧ NoDup words ∧
    total = score_sum words.
Proof.
  intros Hfs Hsize Hparse Hfuel.
  destruct (Dictionary_new_spec fs dict_path content Hfs Hsize)
    as (d & Hnew & Hnbr & Hwf & _ & Hcontains).
  destruct (solve_spec fuel d board_obj board Hwf Hnbr Hparse Hfuel)
    as (words & Hsolve & Hnd & Hsorted & _).
  by exists d, words, (score_sum words).
Qed.

Lemma solve_sorted_and_scored_witness :
  ∃ d words total,
    Dictionary.new example_fs (lit "words.txt") = Ret d ∧
    Dictionary.solve 16 d (PyStr (lit "cdtsoaxxgxxxxxxx")) = Ret (words, total) ∧
    StronglySorted before words ∧ NoDup words ∧
    total = score_sum words.
Proof.
  apply (solve_sorted_and_scored example_fs (lit "words.txt") example_file
           (PyStr (lit "cdtsoaxxgxxxxxxx")) (lit "cdtsoaxxgxxxxxxx") 16).
  - reflexivity.
  - reflexivity.
  - reflexivity.
  - lia.
Defined.

(** The example of the specification. *)
Example solve_cats :
  (d ← Dictionary.new example_fs (lit "words.txt");
   Dictionary.solve 16 d (PyStr (lit "catsxxxxxxxxxxxx")))
  = Ret ([lit "cats"; lit "cat"], 500).
Proof. by vm_compute. Qed.

(** ** The frame of a call *)

Lemma for_each_preserves {A S} (P : S → Prop) (l : list A) (body : A → S → res S) :
  (∀ x s s', P s → body x s = Ret s' → P s') →
  ∀ s s', P s → for_each l body s = Ret s' → P s'.
Proof.
  intros Hbody. induction l as [|x l IH]; intros s s' Hs; simpl.
  - by intros [= <-].
  - destruct (body x s) as [s1| | |] eqn:E; simpl; try done.
    apply IH. by eapply Hbody.
Qed.

Lemma dfs_restores_cur fuel : ∀ cell m node board nbr trie cur out c o,
  dfs_all_words fuel cell m node board nbr trie (cur, out) = Ret (c, o) → c = cur.
Proof.
  induction fuel as [|fuel IH]; intros cell m node board nbr trie cur out c o; [done|].
  rewrite dfs_unfold.
  vec_case (vec_at board cell) ch Hch.
  destruct (_ || _); [by intros [= <- <-]|].
  vec_case (vec_at (Trie.t trie) node) nd Hnd.
  vec_case (vec_at (Trie.next nd) (char_val ch - 97)) nxt Hnxt.
  destruct (nxt =? -1); [by intros [= <- <-]|].
  vec_case (vec_at (Trie.t trie) nxt) nd' Hnd'.
  vec_case (vec_at nbr cell) row Hrow.
  match goal with |- context [for_each row ?b ?s] =>
    pose proof (for_each_preserves (λ st : dfs_state, st.1 = cur ++ [ch]) row b) as Hloop;
    destruct (for_each row b s) as [[c1 o1]| | |] eqn:E end; try done.
  apply Hloop in E; [|simpl|done].
  2:{ intros to [c2 o2] [c3 o3] Hc2. simpl in Hc2. subst c2. unfold visit.
      destruct (_ || _); [done|]. destruct (negb _); [by intros [= <- <-]|].
      intros ->%IH. done. }
  simpl in E. subst c1. rewrite res_bind_Ret. cbv beta iota.
  rewrite pop_back_snoc, res_bind_Ret. by intros [= <- <-].
Qed.

Lemma visit_restores_cur fuel board nbr trie m nxt to cur out c o :
  visit fuel board nbr trie m nxt to (cur, out) = Ret (c, o) → c = cur.
Proof.
  unfold visit. destruct (_ || _); [done|]. destruct (negb _); [by intros [= <- <-]|].
  apply dfs_restores_cur.
Qed.

(** C6: whenever a call of [dfs_all_words] returns, on a prune or after
    the loop, the path string is the one of its entry; the mask is passed
    by value, and after a sibling has returned the remaining siblings run
    with the same mask and the same path string; on a valid configuration
    the call does return. *)
Theorem dfs_restores_path_and_mask
    (fuel : nat) (cell m node : Z) (board : list ascii) (nbr : list (list Z))
    (trie : Trie.Trie) (cur : str) (out : gset str) :
  (∀ c o, dfs_all_words fuel cell m node board nbr trie (cur, out) = Ret (c, o) → c = cur) ∧
  (∀ ch, vec_at board cell = Ret ch → letter_index ch = None →
         dfs_all_words (S fuel) cell m node board nbr trie (cur, out) = Ret (cur, out)) ∧
  (∀ ch nd, vec_at board cell = Ret ch → vec_at (Trie.t trie) node = Ret nd →
            vec_at (Trie.next nd) (char_val ch - 97) = Ret (-1) →
            dfs_all_words (S fuel) cell m node board nbr trie (cur, out) = Ret (cur, out)) ∧
  (∀ to rest nxt c o,
     for_each (to :: rest) (visit fuel board nbr trie m nxt) (cur, out) = Ret (c, o) →
     ∃ o1, visit fuel board nbr trie m nxt to (cur, out) = Ret (cur, o1) ∧
           for_each rest (visit fuel board nbr trie m nxt) (cur, o1) = Ret (c, o) ∧
           c = cur) ∧
  (length board = 16%nat → nbr = build_neighbors_4x4 → wf_trie trie →
   in_grid cell → 0 <= node < sizeZ (Trie.t trie) → (16 ≤ fuel)%nat →
   ∃ out', dfs_all_words fuel cell m node board nbr trie (cur, out) = Ret (cur, out')).
Proof.
  split; [apply dfs_restores_cur|]. split; [|split; [|split]].
  - intros ch Hch Hk. rewrite dfs_unfold, Hch, res_bind_Ret.
    unfold letter_index in Hk.
    destruct (Z.leb_spec 0 (char_val ch - 97)), (Z.ltb_spec (char_val ch - 97) 26);
      simpl in Hk; try done;
      destruct (Z.ltb_spec (char_val ch - 97) 0), (Z.leb_spec 26 (char_val ch - 97));
      simpl; lia || done.
  - intros ch nd Hch Hnd Hslot. rewrite dfs_unfold, Hch, res_bind_Ret.
    destruct (_ || _); [done|]. by rewrite Hnd, res_bind_Ret, Hslot, res_bind_Ret.
  - intros to rest nxt c o. cbn [for_each].
    destruct (visit fuel board nbr trie m nxt to (cur, out)) as [[c1 o1]| | |] eqn:E; try done.
    apply visit_restores_cur in E as Hc. subst c1. rewrite res_bind_Ret.
    intros Hrest. exists o1. split; [done|]. split; [done|].
    eapply (for_each_preserves (λ st : dfs_state, st.1 = cur)) in Hrest; [done| |done].
    intros x [c2 o2] [c3 o3] Hc2. simpl in *. subst c2. apply visit_restores_cur.
  - intros Hboard -> Hwf Hcell Hnode Hfuel.
    destruct (dfs_total board trie fuel Hboard Hwf Hfuel cell m node cur out Hcell Hnode)
      as (out' & Hdfs & _). eauto.
Qed.

Lemma dfs_restores_path_and_mask_witness :
  ∃ out', dfs_all_words 16 0 0 0 (lit "catsxxxxxxxxxxxx") build_neighbors_4x4
            Trie.new (lit "ab", ∅) = Ret (lit "ab", out').
Proof.
  apply (dfs_restores_path_and_mask 16 0 0 0 (lit "catsxxxxxxxxxxxx") build_neighbors_4x4
           Trie.new (lit "ab") ∅).
  - reflexivity.
  - reflexivity.
  - apply wf_nodes_new.
  - unfold in_grid. lia.
  - vm_compute. split; [discriminate | reflexivity].
  - lia.
Defined.

(** ** Depth of the recursion *)

Lemma calls_decreases nbr c1 c2 :
  nbr_ok nbr → calls nbr c1 c2 →
  (length (free_cells (mark c2.2 c2.1)) < length (free_cells (mark c1.2 c1.1)))%nat.
Proof.
  destruct c1 as [cell m], c2 as [to m']. simpl.
  intros [_ Hnbr] (Hcell & -> & (row & Hrow & Hto) & Hv).
  apply free_cells_mark_lt; [|done].
  eapply Forall_lookup in Hnbr; [|done]. rewrite Forall_forall in Hnbr. auto.
Qed.

Lemma calls_chain_length nbr cs : ∀ c,
  nbr_ok nbr → chain (calls nbr) (c :: cs) →
  (length cs ≤ length (free_cells (mark c.2 c.1)))%nat.
Proof.
  induction cs as [|c2 cs IH]; intros c Hnbr Hchain; simpl; [lia|].
  destruct Hchain as [Hcall Hchain].
  pose proof (calls_decreases nbr c c2 Hnbr Hcall).
  specialize (IH c2 Hnbr Hchain). lia.
Qed.

(** C7: the search terminates.  With the adjacency table of the solver and
    any board, trie and starting configuration, fuel 16 is enough and more
    fuel changes nothing; every nested call marks a cell that was not
    visited, and no chain of nested calls is longer than 16. *)
Theorem dfs_terminates_within_16
    (board : list ascii) (trie : Trie.Trie) (cell m node : Z) (st : dfs_state) :
  length board = 16%nat →
  dfs_all_words 16 cell m node board build_neighbors_4x4 trie st ≠ OutOfFuel ∧
  (∀ fuel, (16 ≤ fuel)%nat →
     dfs_all_words fuel cell m node board build_neighbors_4x4 trie st =
     dfs_all_words 16 cell m node board build_neighbors_4x4 trie st) ∧
  (∀ to m', calls build_neighbors_4x4 (cell, m) (to, m') →
     visited m' to = false ∧ visited (mark m' to) to = true ∧
     (length (free_cells (mark m' to)) < length (free_cells m'))%nat) ∧
  (∀ cs, chain (calls build_neighbors_4x4) ((cell, m) :: cs) →
     (length ((cell, m) :: cs) ≤ 16)%nat).
Proof.
  intros Hboard. split; [|split; [|split]].
  - apply dfs_terminates; [done | apply build_neighbors_ok | | lia].
    intros Hcell. by apply free_cells_mark_bound.
  - intros fuel Hfuel. destruct (decide (in_grid cell)) as [Hcell|Hcell].
    + by apply dfs_fuel_irrelevant; [|apply build_neighbors_ok|..].
    + destruct fuel as [|fuel]; [lia|]. destruct st as [cur out].
      rewrite dfs_unfold. change 16%nat with (S 15). rewrite dfs_unfold.
      assert (vec_at board cell = Undefined) as ->; [|done].
      unfold vec_at. destruct (Z.ltb_spec cell 0); [done|].
      rewrite (proj2 (lookup_ge_None board (Z.to_nat cell))); [done|].
      unfold in_grid in Hcell. lia.
  - intros to m' (Hcell & -> & (row & Hrow & Hto) & Hv).
    destruct build_neighbors_ok as [_ Hall].
    eapply Forall_lookup in Hall; [|done]. rewrite Forall_forall in Hall.
    specialize (Hall _ Hto). split; [done|].
    split; [by apply visited_mark_self | by apply free_cells_mark_lt].
  - intros [|c2 cs] Hchain; [simpl; lia|].
    pose proof (calls_chain_length _ _ _ build_neighbors_ok Hchain) as Hlen.
    destruct c2 as [to m']. destruct Hchain as [(Hcell & _) _].
    pose proof (free_cells_mark_bound m cell Hcell). simpl in *. lia.
Qed.

Lemma dfs_terminates_within_16_witness :
  dfs_all_words 16 0 0 0 (lit "catsxxxxxxxxxxxx") build_neighbors_4x4 Trie.new ([], ∅)
    ≠ OutOfFuel ∧
  (∀ fuel, (16 ≤ fuel)%nat →
     dfs_all_words fuel 0 0 0 (lit "catsxxxxxxxxxxxx") build_neighbors_4x4 Trie.new ([], ∅) =
     dfs_all_words 16 0 0 0 (lit "catsxxxxxxxxxxxx") build_neighbors_4x4 Trie.new ([], ∅)) ∧
  (∀ to m', calls build_neighbors_4x4 (0, 0) (to, m') →
     visited m' to = false ∧ visited (mark m' to) to = true ∧
     (length (free_cells (mark m' to)) < length (free_cells m'))%nat) ∧
  (∀ cs, chain (calls build_neighbors_4x4) ((0, 0) :: cs) →
     (length ((0%Z, 0%Z) :: cs) ≤ 16)%nat).
Proof.
  apply (dfs_terminates_within_16 (lit "catsxxxxxxxxxxxx") Trie.new 0 0 0 ([], ∅)).
  reflexivity.
Defined.

(** A chain of 16 nested calls exists: the bound is reached. *)
Example calls_chain_of_16 :
  let cells := [0; 1; 2; 3; 7; 6; 5; 4; 8; 9; 10; 11; 15; 14; 13; 12] in
  let masks := [0; 1; 3; 7; 15; 143; 207; 239; 255; 511; 1023; 2047; 4095; 36863; 53247; 61439] in
  bool_decide (Forall2 (λ c1 c2 : Z * Z,
      in_grid c1.1 ∧ c2.2 = mark c1.2 c1.1 ∧
      c2.1 ∈ default [] (build_neighbors_4x4 !! Z.to_nat c1.1) ∧
      visited c2.2 c2.1 = false)
    (take 15 (zip cells masks)) (drop 1 (zip cells masks))) = true.
Proof. by vm_compute. Qed.

(** C8: on any array of 16 characters the search returns normally: no
    access to the board, the adjacency table, a trie node or a child
    table is out of range, from any cell and any node of the trie; a cell
    whose letter is outside [a]..[z] makes the call return at once, with
    the state it was given. *)
Theorem search_never_faults
    (fs : str → option str) (dict_path content : str) (board : list ascii) (fuel : nat) :
  fs dict_path = Some content → sizeZ content < INT_MAX →
  length board = 16%nat → (16 ≤ fuel)%nat →
  ∃ d, Dictionary.new fs dict_path = Ret d ∧
    (∃ found,
       for_each (seqZ 0 16)
         (λ i st, dfs_all_words fuel i 0 0 board (Dictionary.nbr d) (Dictionary.trie d) st)
         ([], ∅) = Ret ([], found)) ∧
    (∀ cell m node cur out,
       in_grid cell → 0 <= node < sizeZ (Trie.t (Dictionary.trie d)) →
       ∃ out', dfs_all_words fuel cell m node board (Dictionary.nbr d) (Dictionary.trie d)
                 (cur, out) = Ret (cur, out')) ∧
    (∀ cell m node st ch,
       in_grid cell → 0 <= node < sizeZ (Trie.t (Dictionary.trie d)) →
       board !! Z.to_nat cell = Some ch → letter_index ch = None →
       dfs_all_words 1 cell m node board (Dictionary.nbr d) (Dictionary.trie d) st = Ret st).
Proof.
  intros Hfs Hsize Hboard Hfuel.
  destruct (Dictionary_new_spec fs dict_path content Hfs Hsize)
    as (d & Hnew & Hnbr & Hwf & _ & _).
  exists d. split; [done|]. rewrite Hnbr. split; [|split].
  - destruct (search_all board (Dictionary.trie d) fuel Hboard Hwf Hfuel) as (found & ? & _).
    by exists found.
  - intros cell m node cur out Hcell Hnode.
    destruct (dfs_total board _ fuel Hboard Hwf Hfuel cell m node cur out Hcell Hnode)
      as (out' & ? & _). by exists out'.
  - intros cell m node st ch Hcell Hnode Hch Hk.
    eapply dfs_prune; try done; [unfold in_grid in Hcell; lia|].
    unfold child. by rewrite Hk.
Qed.

Lemma search_never_faults_witness :
  ∃ d, Dictionary.new example_fs (lit "words.txt") = Ret d ∧
    (∃ found,
       for_each (seqZ 0 16)
         (λ i st, dfs_all_words 16 i 0 0 (lit "ca7s~xxxXxxxx xx")
                    (Dictionary.nbr d) (Dictionary.trie d) st)
         ([], ∅) = Ret ([], found)) ∧
    (∀ cell m node cur out,
       in_grid cell → 0 <= node < sizeZ (Trie.t (Dictionary.trie d)) →
       ∃ out', dfs_all_words 16 cell m node (lit "ca7s~xxxXxxxx xx")
                 (Dictionary.nbr d) (Dictionary.trie d) (cur, out) = Ret (cur, out')) ∧
    (∀ cell m node st ch,
       in_grid cell → 0 <= node < sizeZ (Trie.t (Dictionary.trie d)) →
       lit "ca7s~xxxXxxxx xx" !! Z.to_nat cell = Some ch → letter_index ch = None →
       dfs_all_words 1 cell m node (lit "ca7s~xxxXxxxx xx")
         (Dictionary.nbr d) (Dictionary.trie d) st = Ret st).
Proof.
  apply (search_never_faults example_fs (lit "words.txt") example_file
           (lit "ca7s~xxxXxxxx xx") 16).
  - reflexivity.
  - reflexivity.
  - reflexivity.
  - lia.
Defined.

(** ** The build policy *)

Lemma add_token_policy tok tr :
  sizeZ tok <= INT_MAX →
  Dictionary.add_token tok tr =
    if decide (accepted tok) then Trie.insert tr (map tolower tok) else Ret tr.
Proof.
  intros Hsize. unfold Dictionary.add_token, accepted.
  destruct (decide (Forall (λ c, isalpha c = true) tok)) as [Hal|Hal].
  - rewrite lower_word_ok by done. simpl.
    assert (sizeZ (map tolower tok) = sizeZ tok) as ->
      by (unfold sizeZ; by rewrite length_map).
    pose proof (sizeZ_nonneg tok).
    rewrite to_int_id by (unfold INT_MIN, INT_MAX in *; lia).
    unfold sizeZ. destruct (Z.leb_spec 3 (Z.of_nat (length tok))).
    + rewrite decide_True; [done|]. split; [done | lia].
    + rewrite decide_False; [done|]. intros [_ ?]. lia.
  - pose proof (lower_word_fail tok [] Hal) as Hf.
    destruct (Dictionary.lower_word tok []) as [ok s]. simpl in Hf. subst ok. simpl.
    rewrite decide_False; [done|]. by intros [? _].
Qed.

(** C9: the constructor does not abort on any word list; a token is
    inserted, lowercased, exactly when all its characters are alphabetic
    and it has at least 3 of them, and is skipped otherwise; so the words
    present in the trie are the lowercased accepted tokens, each of length
    at least 3 and made of the letters [a]..[z] only. *)
Theorem dictionary_build_policy
    (fs : str → option str) (dict_path content : str) :
  fs dict_path = Some content → sizeZ content < INT_MAX →
  ∃ d, Dictionary.new fs dict_path = Ret d ∧
    (∀ tok tr, tok ∈ tokens content →
       Dictionary.add_token tok tr =
         if decide (accepted tok) then Trie.insert tr (map tolower tok) else Ret tr) ∧
    (∀ w, contains (Dictionary.trie d) w ↔
          ∃ tok, tok ∈ tokens content ∧ accepted tok ∧ w = map tolower tok) ∧
    (∀ w, contains (Dictionary.trie d) w → (3 ≤ length w)%nat ∧ Forall is_lower w).
Proof.
  intros Hfs Hsize.
  destruct (Dictionary_new_spec fs dict_path content Hfs Hsize)
    as (d & Hnew & _ & _ & _ & Hcontains).
  exists d. split; [done|]. split; [|split].
  - intros tok tr Htok. apply add_token_policy.
    pose proof (tokens_letters content) as Hlet.
    assert (sizeZ tok <= letters (tokens content)); [|lia].
    clear -Htok. induction (tokens content) as [|t0 l IH]; [by apply elem_of_nil in Htok|].
    simpl. pose proof (letters_nonneg l). pose proof (sizeZ_nonneg t0).
    apply elem_of_cons in Htok as [->|Htok]; [lia|]. specialize (IH Htok). lia.
  - done.
  - intros w Hw%Hcontains. by eapply dictionary_word_shape.
Qed.

Lemma dictionary_build_policy_witness :
  ∃ d, Dictionary.new example_fs (lit "words.txt") = Ret d ∧
    (∀ tok tr, tok ∈ tokens example_file →
       Dictionary.add_token tok tr =
         if decide (accepted tok) then Trie.insert tr (map tolower tok) else Ret tr) ∧
    (∀ w, contains (Dictionary.trie d) w ↔
          ∃ tok, tok ∈ tokens example_file ∧ accepted tok ∧ w = map tolower tok) ∧
    (∀ w, contains (Dictionary.trie d) w → (3 ≤ length w)%nat ∧ Forall is_lower w).
Proof.
  apply (dictionary_build_policy example_fs (lit "words.txt") example_file).
  - reflexivity.
  - reflexivity.
Defined.

(** The words of the example file: "x1" and "at" are skipped, "Dog" is
    lowercased. *)
Example example_trie_words :
  (d ← Dictionary.new example_fs (lit "words.txt");
   Ret (map (accepts (Trie.t (Dictionary.trie d)))
          [lit "cat"; lit "cats"; lit "dog"; lit "x1"; lit "at"; lit "Dog"; lit "ca"]))
  = Ret [true; true; true; false; false; false; false].
Proof. by vm_compute. Qed.

(** C10: a word list without an accepted token builds a dictionary whose
    trie is the root node alone, and [solve] on any valid board then
    returns no word and the score 0. *)
Theorem empty_dictionary_finds_nothing
    (fs : str → option str) (dict_path content : str) :
  fs dict_path = Some content →
  (∀ tok, tok ∈ tokens content → ¬ accepted tok) →
  ∃ d, Dictionary.new fs dict_path = Ret d ∧
    Dictionary.trie d = Trie.new ∧ Trie.t (Dictionary.trie d) = [Trie.Node_new] ∧
    ∀ board_obj board fuel,
      parse_board_any board_obj = Ret board → (16 ≤ fuel)%nat →
      Dictionary.solve fuel d board_obj = Ret ([], 0).
Proof.
  intros Hfs Hnone. unfold Dictionary.new. rewrite Hfs.
  assert (for_each (tokens content) Dictionary.add_token Trie.new = Ret Trie.new) as ->.
  { induction (tokens content) as [|tok l IH]; [done|]. cbn [for_each].
    assert (Dictionary.add_token tok Trie.new = Ret Trie.new) as ->.
    { pose proof (Hnone tok ltac:(by left)) as Hna. unfold Dictionary.add_token.
      destruct (decide (Forall (λ c, isalpha c = true) tok)) as [Hal|Hal].
      - rewrite lower_word_ok by done. simpl.
        assert (sizeZ (map tolower tok) < 3) as Hlt.
        { unfold sizeZ. rewrite length_map. unfold accepted in Hna.
          destruct (decide (3 ≤ length tok)%nat); [|lia]. by destruct Hna. }
        pose proof (sizeZ_nonneg (map tolower tok)).
        rewrite to_int_id by (unfold INT_MIN, INT_MAX; lia).
        by destruct (Z.leb_spec 3 (sizeZ (map tolower tok))); [lia|].
      - pose proof (lower_word_fail tok [] Hal) as Hf.
        destruct (Dictionary.lower_word tok []) as [ok s]. simpl in Hf. by subst ok. }
    rewrite res_bind_Ret. apply IH. intros; apply Hnone. by right. }
  rewrite res_bind_Ret. eexists. split; [done|]. split; [done|]. split; [done|].
  intros board_obj board fuel Hparse Hfuel.
  destruct (solve_spec fuel (Dictionary.mkDictionary Trie.new build_neighbors_4x4)
              board_obj board) as (words & -> & _ & _ & Hwords);
    [apply wf_nodes_new | done..|].
  destruct words as [|w words]; [done|].
  destruct (proj1 (Hwords w) ltac:(by left)) as (_ & Hc & _).
  unfold contains in Hc. simpl in Hc. change (Trie.t Trie.new) with [Trie.Node_new] in Hc.
  by rewrite accepts_new in Hc.
Qed.

Lemma empty_dictionary_finds_nothing_witness :
  ∃ d, Dictionary.new (λ _, Some (lit "a to 4x4 ")) (lit "short.txt") = Ret d ∧
    Dictionary.trie d = Trie.new ∧ Trie.t (Dictionary.trie d) = [Trie.Node_new] ∧
    ∀ board_obj board fuel,
      parse_board_any board_obj = Ret board → (16 ≤ fuel)%nat →
      Dictionary.solve fuel d board_obj = Ret ([], 0).
Proof.
  apply (empty_dictionary_finds_nothing (λ _, Some (lit "a to 4x4 ")) (lit "short.txt")
           (lit "a to 4x4 ")).
  - reflexivity.
  - apply (proj1 (Forall_forall (λ t, ¬ accepted t) (tokens (lit "a to 4x4 ")))).
    apply (bool_decide_eq_true_1 (Forall (λ t, ¬ accepted t) (tokens (lit "a to 4x4 ")))).
    vm_compute. reflexivity.
Defined.

(** ** Invalid boards *)

Lemma append_letters_length s : ∀ t,
  length (append_letters t s) = (length t + letter_count s)%nat.
Proof.
  unfold append_letters, letter_count.
  induction s as [|c s IH]; intros t; simpl; [lia|].
  rewrite IH, filter_cons. destruct (isalpha c) eqn:Hc.
  - rewrite decide_True by done. rewrite length_app. simpl. lia.
  - rewrite decide_False by congruence. lia.
Qed.

Lemma isdigit_not_alpha c : isdigit c = true → isalpha c = false.
Proof.
  unfold isdigit, isalpha. intros [?%Z.leb_le ?%Z.leb_le]%andb_true_iff.
  destruct (Z.leb_spec 65 (uchar_val c)), (Z.leb_spec 97 (uchar_val c)); simpl; lia || done.
Qed.

Lemma letter_count_digit s c :
  c ∈ s → isdigit c = true → (letter_count s < length s)%nat.
Proof.
  intros Hc Hd. unfold letter_count. apply length_filter_lt with (x := c); [done|].
  rewrite isdigit_not_alpha by done. done.
Qed.

(** C2 (as amended): a board string whose letters, once the other
    characters are dropped, do not number 16 -- a string of 15 letters, a
    string of 16 characters one of which is a digit -- makes [solve] raise
    the invalid-board error whatever the dictionary and with no fuel at
    all, so before any search; [solve] only reads the dictionary. *)
Theorem invalid_board_string_rejected (s : str) (d : Dictionary.Dictionary) (fuel : nat) :
  letter_count s ≠ 16%nat ∨ (length s = 16%nat ∧ ∃ c, c ∈ s ∧ isdigit c = true) →
  parse_board_any (PyStr s) =
    Throw (runtime_error "board string must contain 16 letters") ∧
  Dictionary.solve fuel d (PyStr s) =
    Throw (runtime_error "board string must contain 16 letters") ∧
  Dictionary.solve 0 d (PyStr s) =
    Throw (runtime_error "board string must contain 16 letters").
Proof.
  intros H.
  assert (letter_count s ≠ 16%nat) as Hn.
  { destruct H as [?|(Hlen & c & Hc & Hd)]; [done|].
    pose proof (letter_count_digit s c Hc Hd). lia. }
  assert (parse_board_any (PyStr s) =
            Throw (runtime_error "board string must contain 16 letters")) as Hp.
  { simpl. change 16 with (Z.of_nat 16). rewrite sizeZ_eqb.
    rewrite bool_decide_eq_false_2; [done|]. by rewrite append_letters_length. }
  split; [done|]. unfold Dictionary.solve. by rewrite Hp.
Qed.

Lemma invalid_board_string_rejected_witness :
  parse_board_any (PyStr (lit "abcdefghijklmno")) =
    Throw (runtime_error "board string must contain 16 letters") ∧
  Dictionary.solve 16 (Dictionary.mkDictionary (Trie.mkTrie []) []) (PyStr (lit "abcdefghijklmno")) =
    Throw (runtime_error "board string must contain 16 letters") ∧
  Dictionary.solve 0 (Dictionary.mkDictionary (Trie.mkTrie []) []) (PyStr (lit "abcdefghijklmno")) =
    Throw (runtime_error "board string must contain 16 letters").
Proof.
  apply (invalid_board_string_rejected (lit "abcdefghijklmno")
           (Dictionary.mkDictionary (Trie.mkTrie []) []) 16).
  left. vm_compute. lia.
Defined.

(** A board string of 16 letters and a digit is accepted: the digit is
    dropped and the board is solved. *)
Lemma board_string_with_digit_accepted :
  (∃ c, c ∈ lit "catsxxxxxxxxxxxx7" ∧ isdigit c = true) ∧
  parse_board_any (PyStr (lit "catsxxxxxxxxxxxx7")) = Ret (lit "catsxxxxxxxxxxxx") ∧
  (d ← Dictionary.new example_fs (lit "words.txt");
   Dictionary.solve 16 d (PyStr (lit "catsxxxxxxxxxxxx7")))
  = Ret ([lit "cats"; lit "cat"], 500).
Proof.
  split; [|split; by vm_compute].
  exists "7"%char. split; [|done]. apply list_elem_of_In. vm_compute. tauto.
Qed.

(** ** The board generator *)

Section generator.
Variable mt19937 : Type.
Variable mt19937_seed : Z → mt19937.
Variable discrete_distribution : Type.
Variable dist_new : list Z → discrete_distribution.
Variable dist_call : discrete_distribution → mt19937 → Z * discrete_distribution * mt19937.

(** The contract of [std::discrete_distribution] over 26 weights, on
    the states [dist_inv] a distribution object can be in: a sample is
    an index of a weight, and the sample and the engine after the call
    depend on the engine only (the object keeps no state between
    calls). *)
Variable dist_inv : discrete_distribution → Prop.
Hypothesis inv_new : dist_inv (dist_new freq).
Hypothesis inv_call : ∀ d rng, dist_inv d → dist_inv (dist_call d rng).1.2.
Hypothesis call_range : ∀ d rng, dist_inv d → 0 <= (dist_call d rng).1.1 < 26.
Hypothesis call_stateless : ∀ d1 d2 rng, dist_inv d1 → dist_inv d2 →
    (dist_call d1 rng).1.1 = (dist_call d2 rng).1.1 ∧
    (dist_call d1 rng).2 = (dist_call d2 rng).2.

Lemma tl_ok_dist tl :
    tl_ok dist_inv tl → dist_inv (match tl with Some d => d | None => dist_new freq end).
Proof. by destruct tl. Qed.

Lemma random_letter_spec tl1 tl2 rng :
    tl_ok dist_inv tl1 → tl_ok dist_inv tl2 →
    (random_letter dist_new dist_call tl1 rng).1.1 = (random_letter dist_new dist_call tl2 rng).1.1 ∧
    (random_letter dist_new dist_call tl1 rng).2 = (random_letter dist_new dist_call tl2 rng).2 ∧
    is_lower (random_letter dist_new dist_call tl1 rng).1.1 ∧
    tl_ok dist_inv (random_letter dist_new dist_call tl1 rng).1.2.
Proof.
    intros H1%tl_ok_dist H2%tl_ok_dist. unfold random_letter.
    pose proof (call_stateless _ _ rng H1 H2) as [Hv Hr].
    pose proof (call_range _ rng H1) as Hrange.
    pose proof (inv_call _ rng H1) as Hinv.
    destruct (dist_call (match tl1 with Some d => d | None => dist_new freq end) rng)
      as [[v1 d1] r1].
    destruct (dist_call (match tl2 with Some d => d | None => dist_new freq end) rng)
      as [[v2 d2] r2].
    simpl in *. subst. split; [done|]. split; [done|]. split; [|done].
    exists v2. apply letter_index_Some. unfold char_val.
    rewrite uchar_val_char_of by lia. destruct (Z.ltb_spec (97 + v2) 128); lia.
Qed.

Lemma generate_loop_spec n : ∀ tl1 tl2 rng out,
    tl_ok dist_inv tl1 → tl_ok dist_inv tl2 →
    (generate_loop dist_new dist_call n tl1 rng out).1 = (generate_loop dist_new dist_call n tl2 rng out).1 ∧
    tl_ok dist_inv (generate_loop dist_new dist_call n tl1 rng out).2 ∧
    ∃ s, (generate_loop dist_new dist_call n tl1 rng out).1 = out ++ s ∧ length s = n ∧ Forall is_lower s.
Proof.
    induction n as [|n IH]; intros tl1 tl2 rng out H1 H2; simpl.
    - split; [done|]. split; [done|]. exists []. by rewrite app_nil_r.
    - destruct (random_letter_spec tl1 tl2 rng H1 H2) as (Hc & Hr & Hlow & Hok1).
      destruct (random_letter_spec tl2 tl1 rng H2 H1) as (_ & _ & _ & Hok2).
      destruct (random_letter dist_new dist_call tl1 rng) as [[c1 t1] r1].
      destruct (random_letter dist_new dist_call tl2 rng) as [[c2 t2] r2]. simpl in *. subst.
      destruct (IH t1 t2 r2 (out ++ [c2]) Hok1 Hok2) as (Heq & Hok & s & Hs & Hlen & Hall).
      split; [done|]. split; [done|]. exists (c2 :: s).
      rewrite Hs, <- app_assoc. split; [done|]. split; [simpl; lia | by constructor].
Qed.

(** C4: for every seed, two calls of [generate_board] return the same
    string, whatever state the thread's distribution object is in and
    also when the second call follows the first in the same thread; the
    string has 16 characters, all of them letters [a]..[z]. *)
Theorem generate_board_deterministic (seed : Z) (tl1 tl2 : option discrete_distribution) :
    tl_ok dist_inv tl1 → tl_ok dist_inv tl2 →
    let generate_board := generate_board_py mt19937_seed dist_new dist_call seed in
    (generate_board tl1).1 = (generate_board tl2).1 ∧
    (generate_board (generate_board tl1).2).1 = (generate_board tl1).1 ∧
    length (generate_board tl1).1 = 16%nat ∧
    Forall is_lower (generate_board tl1).1.
Proof.
    intros H1 H2 generate_board. subst generate_board. unfold generate_board_py.
    destruct (generate_loop_spec 16 tl1 tl2 (mt19937_seed (to_uint32 seed)) [] H1 H2)
      as (Heq & Hok & s & Hs & Hlen & Hall).
    destruct (generate_loop_spec 16 _ tl1 (mt19937_seed (to_uint32 seed)) [] Hok H1)
      as (Heq' & _).
    split; [done|]. split; [done|]. rewrite Hs. simpl. done.
Qed.
End generator.

Lemma generate_board_deterministic_witness :
  (generate_board_py MT.seed Sampler.new Sampler.call 42 None).1 =
  (generate_board_py MT.seed Sampler.new Sampler.call 42
     (Some (Sampler.new freq))).1 ∧
  (generate_board_py MT.seed Sampler.new Sampler.call 42
     (generate_board_py MT.seed Sampler.new Sampler.call 42 None).2).1 =
  (generate_board_py MT.seed Sampler.new Sampler.call 42 None).1 ∧
  length (generate_board_py MT.seed Sampler.new Sampler.call 42 None).1
    = 16%nat ∧
  Forall is_lower (generate_board_py MT.seed Sampler.new Sampler.call 42 None).1.
Proof.
  apply (generate_board_deterministic MT.state MT.seed Sampler.t Sampler.new Sampler.call
           (λ d, d = Sampler.new freq)).
  - reflexivity.
  - intros d rng ->. unfold Sampler.call.
    destruct (MT.draw rng) as [lo r1]. destruct (MT.draw r1) as [hi r2]. reflexivity.
  - intros d rng _. unfold Sampler.call.
    destruct (MT.draw rng) as [lo r1]. destruct (MT.draw r1) as [hi r2]. simpl.
    unfold sizeZ. lia.
  - intros d1 d2 rng -> ->. split; reflexivity.
  - exact I.
  - reflexivity.
Defined.

(** The generator on a few seeds, with the Mersenne Twister and the exact
    sampler. *)
Example generate_board_examples :
  map (λ seed, (generate_board_py MT.seed Sampler.new Sampler.call seed None).1)
      [0; 1; 42]
  = [lit "ntttohfaelslhtho"; lit "yudyehhoutfmiemt"; lit "sesnicigdoaruayo"].
Proof. by vm_compute. Qed.

Example mt19937_first_output : (MT.draw (MT.seed 5489)).1 = 3499211612.
Proof. by vm_compute. Qed.

(** * Further properties *)

(** ** [Trie::insert] *)

Lemma trie_inv_new : trie_inv Trie.new.
Proof. split; [apply wf_nodes_new | apply path_inj_new]. Qed.

Lemma set_terminal_id nd : Trie.terminal nd = true → Trie.set_terminal nd = nd.
Proof. destruct nd as [nx tm]. simpl. by intros ->. Qed.

Lemma insert_from_present w : ∀ tv v x,
  walk tv v w = Some x → is_terminal tv x = true → 0 <= v →
  Trie.insert_from tv v w = Ret tv.
Proof.
  induction w as [|c w IH]; intros tv v x Hw Hterm Hv.
  - simpl in Hw. simplify_eq. unfold is_terminal in Hterm.
    destruct (node_at tv x) as [nd|] eqn:Hnd; [|done]. simpl in Hterm.
    apply node_at_Some in Hnd as [_ Hnd].
    cbn [Trie.insert_from]. rewrite (vec_at_lookup _ _ _ Hv Hnd), res_bind_Ret.
    rewrite set_terminal_id by done. by rewrite list_insert_id.
  - simpl in Hw. destruct (child tv v c) as [e|] eqn:Hc; [|done]. simpl in Hw.
    apply child_Some in Hc as (k & nd & Hk & _ & Hnd & He & Hne).
    pose proof (proj1 (letter_index_Some _ _) Hk) as [Hkc Hkr].
    cbn [Trie.insert_from]. rewrite <- Hkc.
    rewrite (vec_at_lookup _ _ _ Hv Hnd), res_bind_Ret.
    rewrite (vec_at_lookup _ _ _ (proj1 Hkr) He), res_bind_Ret.
    destruct (Z.eqb_spec e (-1)); [done|].
    rewrite (vec_at_lookup _ _ _ Hv Hnd), res_bind_Ret.
    rewrite (vec_at_lookup _ _ _ (proj1 Hkr) He), res_bind_Ret.
    eapply IH; [done..|].
    destruct (decide (0 <= e)); [done|]. exfalso.
    (* a negative child other than -1 cannot be walked from *)
    destruct w as [|c' w'].
    + simpl in Hw. simplify_eq. unfold is_terminal, node_at in Hterm.
      destruct (Z.ltb_spec x 0); [done | lia].
    + simpl in Hw. destruct (child tv e c') as [e'|] eqn:Hc'; [|done].
      apply child_Some in Hc' as (? & ? & _ & ? & _). lia.
Qed.

(** One character of [insert], on a well-formed vector. *)
Lemma insert_from_step tv v c k w :
  wf_nodes tv → 0 <= v < sizeZ tv → letter_index c = Some k → sizeZ tv < INT_MAX →
  ∃ tv1 v1, Trie.insert_from tv v (c :: w) = Trie.insert_from tv1 v1 w ∧
            wf_nodes tv1 ∧ 0 <= v1 < sizeZ tv1 ∧
            sizeZ tv <= sizeZ tv1 <= sizeZ tv + 1.
Proof.
  intros Hwf Hv Hk Hsize.
  destruct (vec_at_in_range tv v Hv) as (nd & Hat & Hnd).
  pose proof (proj1 (letter_index_Some _ _) Hk) as [Hkc Hkr].
  pose proof (wf_nodes_lookup _ _ _ Hwf Hnd) as Hwn.
  destruct (wf_node_has_slot _ _ _ Hwn Hkr) as [e He].
  cbn [Trie.insert_from]. rewrite <- Hkc, Hat, res_bind_Ret.
  rewrite (vec_at_lookup _ _ _ (proj1 Hkr) He), res_bind_Ret.
  pose proof (sizeZ_nonneg tv).
  destruct (Z.eqb_spec e (-1)) as [->|Hne].
  - rewrite to_int_id by (unfold INT_MIN, INT_MAX in *; lia).
    fold (grow tv v nd k).
    rewrite (vec_at_node_at (grow tv v nd k) v (Trie.set_next nd k (sizeZ tv))).
    2:{ rewrite node_at_grow by (done || lia). by rewrite decide_True. }
    rewrite res_bind_Ret.
    assert (vec_at (Trie.next (Trie.set_next nd k (sizeZ tv))) k = Ret (sizeZ tv)) as ->.
    { apply vec_at_lookup; [lia|]. simpl.
      apply list_lookup_insert_eq. by eapply lookup_lt_Some. }
    rewrite res_bind_Ret. exists (grow tv v nd k), (sizeZ tv).
    split; [done|]. split; [by eapply wf_nodes_grow|]. rewrite grow_length. lia.
  - rewrite Hat, res_bind_Ret.
    rewrite (vec_at_lookup _ _ _ (proj1 Hkr) He), res_bind_Ret.
    exists tv, e. split; [done|]. split; [done|]. split; [|lia].
    destruct (wf_node_slot _ _ _ _ Hwn He); [done | unfold sizeZ; lia].
Qed.

Lemma insert_from_lower w : ∀ tv v,
  wf_nodes tv → 0 <= v < sizeZ tv → sizeZ tv + sizeZ w <= INT_MAX →
  Forall is_lower w →
  ∃ tv', Trie.insert_from tv v w = Ret tv' ∧ wf_nodes tv' ∧
         sizeZ tv <= sizeZ tv' <= sizeZ tv + sizeZ w.
Proof.
  induction w as [|c w IH]; intros tv v Hwf Hv Hsize Hlow.
  - destruct (vec_at_in_range tv v Hv) as (nd & Hat & Hnd).
    exists (set_terminal_at tv v nd). cbn [Trie.insert_from].
    rewrite Hat, res_bind_Ret. split; [done|]. split; [by apply wf_nodes_mark|].
    unfold set_terminal_at, sizeZ. rewrite length_insert. simpl. lia.
  - apply Forall_cons in Hlow as [[k Hk] Hlow]. rewrite sizeZ_cons in *.
    pose proof (sizeZ_nonneg w).
    destruct (insert_from_step tv v c k w Hwf Hv Hk) as (tv1 & v1 & -> & Hwf1 & Hv1 & Hsz);
      [lia|].
    destruct (IH tv1 v1 Hwf1 Hv1) as (tv' & -> & Hwf' & Hsz'); [lia | done |].
    exists tv'. split; [done|]. split; [done | lia].
Qed.

Lemma insert_from_not_lower w : ∀ tv v,
  wf_nodes tv → 0 <= v < sizeZ tv → sizeZ tv + sizeZ w <= INT_MAX →
  ¬ Forall is_lower w → Trie.insert_from tv v w = Undefined.
Proof.
  induction w as [|c w IH]; intros tv v Hwf Hv Hsize Hlow.
  - destruct Hlow. constructor.
  - rewrite sizeZ_cons in *. pose proof (sizeZ_nonneg w).
    destruct (letter_index c) as [k|] eqn:Hk.
    + destruct (insert_from_step tv v c k w Hwf Hv Hk) as (tv1 & v1 & -> & Hwf1 & Hv1 & Hsz);
        [lia|].
      apply IH; [done.. | lia |]. intros Hw. apply Hlow. constructor; [by exists k | done].
    + destruct (vec_at_in_range tv v Hv) as (nd & Hat & Hnd).
      pose proof (wf_nodes_lookup _ _ _ Hwf Hnd) as [Hlen _].
      cbn [Trie.insert_from]. rewrite Hat, res_bind_Ret.
      assert (vec_at (Trie.next nd) (char_val c - 97) = Undefined) as ->; [|done].
      unfold vec_at. destruct (Z.ltb_spec (char_val c - 97) 0); [done|].
      rewrite (proj2 (lookup_ge_None _ _)); [done|]. rewrite Hlen.
      unfold letter_index in Hk.
      destruct (Z.leb_spec 0 (char_val c - 97)), (Z.ltb_spec (char_val c - 97) 26);
        simpl in Hk; try done; lia.
Qed.

(** X1: inserting a word of letters [a]..[z] into a trie built by
    insertions succeeds, keeps the invariant, and adds that word and no
    other to the words the trie contains; the vector grows by at most
    one node a letter and never shrinks. *)
Theorem insert_adds_exactly_the_word (tr : Trie.Trie) (w : str) :
  trie_inv tr → Forall is_lower w →
  sizeZ (Trie.t tr) + sizeZ w <= INT_MAX →
  ∃ tr', Trie.insert tr w = Ret tr' ∧ trie_inv tr' ∧
         contains tr' w ∧
         (∀ u, contains tr' u ↔ contains tr u ∨ u = w) ∧
         sizeZ (Trie.t tr) <= sizeZ (Trie.t tr') <= sizeZ (Trie.t tr) + sizeZ w.
Proof.
  intros [Hwf Hinj] Hlow Hsize. destruct tr as [tv]. simpl in *.
  destruct (insert_from_spec w tv 0 [] Hwf Hinj eq_refl Hlow Hsize)
    as (tv' & Hins & Hwf' & Hinj' & _ & Hacc).
  destruct (insert_from_lower w tv 0 Hwf (wf_nodes_root _ Hwf) Hsize Hlow)
    as (tv'' & Hins' & _ & Hsz).
  rewrite Hins in Hins'. simplify_eq.
  exists (Trie.mkTrie tv''). unfold Trie.insert. simpl. rewrite Hins, res_bind_Ret.
  split; [done|]. split; [by split|].
  assert (∀ u, contains (Trie.mkTrie tv'') u ↔ contains (Trie.mkTrie tv) u ∨ u = w) as Hc.
  { intros u. unfold contains. simpl. rewrite Hacc, orb_true_iff, bool_decide_eq_true. done. }
  split; [apply Hc; by right|]. done.
Qed.

Lemma insert_adds_exactly_the_word_witness :
  ∃ tr', Trie.insert Trie.new (lit "cat") = Ret tr' ∧ trie_inv tr' ∧
         contains tr' (lit "cat") ∧
         (∀ u, contains tr' u ↔ contains Trie.new u ∨ u = lit "cat") ∧
         sizeZ (Trie.t Trie.new) <= sizeZ (Trie.t tr')
           <= sizeZ (Trie.t Trie.new) + sizeZ (lit "cat").
Proof.
  apply (insert_adds_exactly_the_word Trie.new (lit "cat")).
  - apply trie_inv_new.
  - apply (bool_decide_eq_true_1 (Forall is_lower (lit "cat"))). vm_compute. reflexivity.
  - vm_compute. discriminate.
Defined.

(** X2: inserting a word the trie contains returns the trie as it is:
    no node is added and no field changes. *)
Theorem insert_present_word_is_identity (tr : Trie.Trie) (w : str) :
  contains tr w → Trie.insert tr w = Ret tr.
Proof.
  destruct tr as [tv]. unfold contains, accepts. simpl.
  destruct (walk tv 0 w) as [x|] eqn:Hw; [|done]. simpl. intros Hterm.
  unfold Trie.insert. simpl.
  by rewrite (insert_from_present w tv 0 x Hw Hterm).
Qed.

Lemma insert_present_word_is_identity_witness :
  Trie.insert example_trie (lit "cat") = Ret example_trie.
Proof.
  apply (insert_present_word_is_identity example_trie (lit "cat")).
  vm_compute. reflexivity.
Defined.

(** X3: on a well-formed trie, [insert] succeeds when every character of
    the word is a letter [a]..[z], and reads a child table out of range
    (undefined behaviour) as soon as one is not. *)
Theorem insert_defined_iff_lowercase (tr : Trie.Trie) (w : str) :
  wf_trie tr → sizeZ (Trie.t tr) + sizeZ w <= INT_MAX →
  (Forall is_lower w → ∃ tr', Trie.insert tr w = Ret tr' ∧ wf_trie tr') ∧
  (¬ Forall is_lower w → Trie.insert tr w = Undefined).
Proof.
  intros Hwf Hsize. destruct tr as [tv]. unfold wf_trie in *. simpl in *. split.
  - intros Hlow.
    destruct (insert_from_lower w tv 0 Hwf (wf_nodes_root _ Hwf) Hsize Hlow)
      as (tv' & Hins & Hwf' & _).
    exists (Trie.mkTrie tv'). unfold Trie.insert. simpl. by rewrite Hins.
  - intros Hlow. unfold Trie.insert. simpl.
    by rewrite (insert_from_not_lower w tv 0 Hwf (wf_nodes_root _ Hwf) Hsize Hlow).
Qed.

Lemma insert_defined_iff_lowercase_witness :
  (Forall is_lower (lit "caT") →
     ∃ tr', Trie.insert example_trie (lit "caT") = Ret tr' ∧ wf_trie tr') ∧
  (¬ Forall is_lower (lit "caT") → Trie.insert example_trie (lit "caT") = Undefined).
Proof.
  apply (insert_defined_iff_lowercase example_trie (lit "caT")).
  - apply (bool_decide_eq_true_1 (wf_trie example_trie)). vm_compute. reflexivity.
  - vm_compute. discriminate.
Defined.

Example insert_uppercase_undefined :
  Trie.insert example_trie (lit "caT") = Undefined.
Proof. by vm_compute. Qed.

(** ** [build_neighbors_4x4] *)

Lemma king_adjacent_sym a b : king_adjacent a b → king_adjacent b a.
Proof.
  unfold king_adjacent, king_adjacentb.
  intros [[Hne Hr]%andb_true_iff Hc]%andb_true_iff.
  apply Z.leb_le in Hr, Hc. apply negb_true_iff, Z.eqb_neq in Hne.
  apply andb_true_iff. split; [apply andb_true_iff; split|].
  - apply negb_true_iff, Z.eqb_neq. lia.
  - apply Z.leb_le. lia.
  - apply Z.leb_le. lia.
Qed.

(** X4: the table of [build_neighbors_4x4] is king-move adjacency on the
    4x4 grid: the row of a cell lists, each once, the cells at Chebyshev
    distance 1 from it, 3 at a corner, 5 on an edge and 8 inside, never
    the cell itself, and a cell is in the row of each of its
    neighbours. *)
Theorem build_neighbors_is_king_adjacency (a : Z) :
  in_grid a →
  ∃ row, build_neighbors_4x4 !! Z.to_nat a = Some row ∧
         NoDup row ∧ sizeZ row = neighbour_count a ∧ a ∉ row ∧
         (∀ b, b ∈ row ↔ in_grid b ∧ king_adjacent a b) ∧
         (∀ b row', b ∈ row → build_neighbors_4x4 !! Z.to_nat b = Some row' → a ∈ row').
Proof.
  intros Ha.
  destruct (nbr_ok_row _ a build_neighbors_ok Ha) as (row & _ & Hrow & Hgrid).
  rewrite Forall_forall in Hgrid.
  assert (∀ b, b ∈ row ↔ in_grid b ∧ king_adjacent a b) as Hadj.
  { intros b. split.
    - intros Hb. split; [by apply Hgrid|].
      by apply (build_neighbors_adjacent a b row); [|apply Hgrid|..].
    - intros [Hb Hk]. by apply (build_neighbors_adjacent a b row). }
  assert (rows_check = true) as Hchk by (by vm_compute).
  unfold rows_check in Hchk. rewrite forallb_forall in Hchk.
  specialize (Hchk a ltac:(apply list_elem_of_In, elem_of_seqZ; unfold in_grid in Ha; lia)).
  rewrite Hrow in Hchk. simpl in Hchk.
  apply andb_true_iff in Hchk as [Hnd%bool_decide_eq_true Hlen%Z.eqb_eq].
  exists row. split; [done|]. split; [done|]. split; [done|]. split; [|split; [done|]].
  - intros [_ Hk]%Hadj. unfold king_adjacent, king_adjacentb in Hk.
    rewrite Z.eqb_refl in Hk. done.
  - intros b row' [Hb Hk]%Hadj Hrow'.
    apply (build_neighbors_adjacent b a row'); [done..|]. by apply king_adjacent_sym.
Qed.

Lemma build_neighbors_is_king_adjacency_witness :
  ∃ row, build_neighbors_4x4 !! Z.to_nat 5 = Some row ∧
         NoDup row ∧ sizeZ row = neighbour_count 5 ∧ 5 ∉ row ∧
         (∀ b, b ∈ row ↔ in_grid b ∧ king_adjacent 5 b) ∧
         (∀ b row', b ∈ row → build_neighbors_4x4 !! Z.to_nat b = Some row' → 5 ∈ row').
Proof.
  apply (build_neighbors_is_king_adjacency 5). unfold in_grid. lia.
Defined.

Example neighbour_counts :
  map neighbour_count (seqZ 0 16) = [3; 5; 5; 3; 5; 8; 8; 5; 5; 8; 8; 5; 3; 5; 5; 3].
Proof. by vm_compute. Qed.

(** ** The comparator of [solve] *)

(** X10: the comparator that [solve] passes to [std::sort] is a strict
    total order on strings: irreflexive, asymmetric, transitive, and two
    strings neither of which comes before the other are equal. *)
Theorem comp_strict_total_order :
  (∀ a, Dictionary.comp a a = false) ∧
  (∀ a b, Dictionary.comp a b = true → Dictionary.comp b a = false) ∧
  (∀ a b c, Dictionary.comp a b = true → Dictionary.comp b c = true →
            Dictionary.comp a c = true) ∧
  (∀ a b, Dictionary.comp a b = false → Dictionary.comp b a = false → a = b).
Proof.
  split; [|split; [|split]].
  - intros a. apply not_true_iff_false. rewrite comp_spec. apply before_irrefl.
  - intros a b Hab%comp_spec. apply not_true_iff_false. rewrite comp_spec.
    intros Hba. eapply before_irrefl, before_trans; eauto.
  - intros a b c Hab%comp_spec Hbc%comp_spec. apply comp_spec. by eapply before_trans.
  - intros a b Hab%not_true_iff_false Hba%not_true_iff_false.
    rewrite comp_spec in Hab, Hba.
    destruct (before_trichotomy a b) as [?|[?|?]]; done.
Qed.

(** ** [word_score] *)

(** X15: from length 2 up to the largest length whose score fits an
    [int], a longer word scores strictly more; no score is negative and
    every score is a multiple of 100. *)
Theorem word_score_strictly_increasing (a b : Z) :
  2 <= a → a < b → b <= score_max_len →
  word_score a < word_score b ∧ 0 <= word_score a ∧ word_score a mod 100 = 0.
Proof.
  intros Ha Hab Hb. rewrite !word_score_cases by lia. split; [|split].
  - repeat match goal with
    | |- context [?x <? ?y] => destruct (Z.ltb_spec x y)
    | |- context [?x =? ?y] => destruct (Z.eqb_spec x y)
    end; lia.
  - repeat match goal with
    | |- context [?x <? ?y] => destruct (Z.ltb_spec x y)
    | |- context [?x =? ?y] => destruct (Z.eqb_spec x y)
    end; lia.
  - repeat match goal with
    | |- context [?x <? ?y] => destruct (Z.ltb_spec x y)
    | |- context [?x =? ?y] => destruct (Z.eqb_spec x y)
    end; try done.
    replace (2200 + 400 * (a - 8)) with ((22 + 4 * (a - 8)) * 100) by lia.
    apply Z.mod_mul. lia.
Qed.

Lemma word_score_strictly_increasing_witness :
  word_score 7 < word_score 8 ∧ 0 <= word_score 7 ∧ word_score 7 mod 100 = 0.
Proof.
  apply (word_score_strictly_increasing 7 8); unfold score_max_len; lia.
Defined.

(** ** [parse_board_any] *)

Lemma append_letters_eq s : ∀ t,
  append_letters t s = t ++ map tolower (filter (λ c, isalpha c = true) s).
Proof.
  unfold append_letters. induction s as [|c s IH]; intros t; simpl.
  - by rewrite app_nil_r.
  - rewrite IH, filter_cons. destruct (isalpha c) eqn:Hc.
    + rewrite decide_True by done. simpl. by rewrite <- app_assoc.
    + rewrite decide_False by congruence. done.
Qed.


Lemma is_lower_alpha c : is_lower c → isalpha c = true ∧ tolower c = c.
Proof.
  intros [k Hk]. pose proof (letter_index_uchar _ _ Hk) as Hu.
  apply letter_index_Some in Hk as [_ Hk]. unfold isalpha, tolower. rewrite Hu.
  destruct (Z.leb_spec 65 (k + 97)), (Z.leb_spec (k + 97) 90),
    (Z.leb_spec 97 (k + 97)), (Z.leb_spec (k + 97) 122); simpl; split; done || lia.
Qed.

Lemma lower_letters_fixed b :
  Forall is_lower b → map tolower (filter (λ c, isalpha c = true) b) = b.
Proof.
  induction 1 as [|c b Hc Hb IH]; [done|].
  destruct (is_lower_alpha c Hc) as [Ha Ht].
  rewrite filter_cons, decide_True by done. simpl. by rewrite Ht, IH.
Qed.

Lemma append_letters_lower t s :
  Forall is_lower t → Forall is_lower (append_letters t s).
Proof.
  intros Ht. rewrite append_letters_eq. apply Forall_app. split; [done|].
  apply lowercased_is_lower. apply Forall_forall. by intros c [? _]%list_elem_of_filter.
Qed.

Lemma parse_string_closed s :
  parse_board_any (PyStr s) =
    if decide (letter_count s = 16%nat)
    then Ret (map tolower (filter (λ c, isalpha c = true) s))
    else Throw (runtime_error "board string must contain 16 letters").
Proof.
  simpl. change 16 with (Z.of_nat 16). rewrite sizeZ_eqb.
  rewrite append_letters_length. simpl.
  destruct (decide (letter_count s = 16%nat)) as [Hn|Hn].
  - rewrite bool_decide_eq_true_2 by done. simpl. f_equal.
    rewrite append_letters_eq. simpl. apply take_ge.
    rewrite length_map. unfold letter_count in Hn. lia.
  - by rewrite bool_decide_eq_false_2.
Qed.

Lemma parse_lower_board b :
  length b = 16%nat → Forall is_lower b → parse_board_any (PyStr b) = Ret b.
Proof.
  intros Hlen Hlow. rewrite parse_string_closed.
  assert (filter (λ c, isalpha c = true) b = b) as Hf.
  { clear Hlen. induction Hlow as [|c b Hc Hb IH]; [done|].
    rewrite filter_cons, decide_True by by apply is_lower_alpha. by rewrite IH. }
  rewrite lower_letters_fixed by done.
  unfold letter_count. rewrite Hf. by rewrite decide_True.
Qed.

Lemma parse_seq_unfold seq :
  parse_board_any (PySeq seq) =
    if (sizeZ seq =? 4) && from_option is_PyStr false (seq !! 0%nat) then
      t ← for_each (take 4 seq) rows_body [];
      if negb (sizeZ t =? 16)
      then Throw (runtime_error "4 rows must contain 16 letters total")
      else Ret (take 16 t)
    else if sizeZ seq =? 16 then for_each seq cells_body []
    else Throw (runtime_error
      "board must be a 16-letter string, 4x4 list of strings, or list of 16 letters").
Proof. reflexivity. Qed.



Lemma rows_body_lower l : ∀ t t',
  Forall is_lower t → for_each l rows_body t = Ret t' → Forall is_lower t'.
Proof.
  intros t t'. apply (for_each_preserves (Forall is_lower)).
  intros o s s' Hs. destruct o as [r| |]; try done.
  unfold rows_body. simpl. intros [= <-]. by apply append_letters_lower.
Qed.

Lemma cells_body_cell c acc :
  cells_body (PyStr [c]) acc =
    if isalpha c then Ret (acc ++ [tolower c])
    else Throw (runtime_error "board list must contain 16 single letters").
Proof. reflexivity. Qed.

Lemma cells_body_spec seq : ∀ acc b,
  for_each seq cells_body acc = Ret b ↔
  ∃ cs, seq = map cell_obj cs ∧ Forall (λ c, isalpha c = true) cs ∧
        b = acc ++ map tolower cs.
Proof.
  induction seq as [|o seq IH]; intros acc b; cbn [for_each].
  - split.
    + intros [= <-]. exists []. by rewrite app_nil_r.
    + intros (cs & Hcs & _ & ->). destruct cs; [|done]. by rewrite app_nil_r.
  - split.
    + destruct o as [cell| |]; [|done..].
      destruct cell as [|c [|]]; [done| |done]. rewrite cells_body_cell.
      destruct (isalpha c) eqn:Hc; [|done]. rewrite res_bind_Ret.
      intros (cs & -> & Hal & ->)%IH. exists (c :: cs).
      split; [done|]. split; [by constructor|]. by rewrite <- app_assoc.
    + intros (cs & Hcs & Hal & ->). destruct cs as [|c cs]; [done|].
      simpl in Hcs. injection Hcs as -> ->. apply Forall_cons in Hal as [Hc Hal].
      change (cell_obj c) with (PyStr [c]). rewrite cells_body_cell, Hc, res_bind_Ret.
      apply IH. exists cs. split; [done|]. split; [done|]. by rewrite <- app_assoc.
Qed.

Lemma parse_board_lower board_obj board :
  parse_board_any board_obj = Ret board → Forall is_lower board.
Proof.
  destruct board_obj as [s|seq|]; [| |done].
  - rewrite parse_string_closed. case_decide; [|done]. intros [= <-].
    apply lowercased_is_lower. apply Forall_forall. by intros c [? _]%list_elem_of_filter.
  - rewrite parse_seq_unfold. destruct (_ && _).
    + destruct (for_each (take 4 seq) rows_body []) as [t| | |] eqn:E; try done.
      simpl. destruct (negb _); [done|]. intros [= <-].
      apply Forall_take. eapply rows_body_lower; [|done]. constructor.
    + destruct (sizeZ seq =? 16); [|done].
      intros (cs & _ & Hal & ->)%cells_body_spec. simpl. by apply lowercased_is_lower.
Qed.

(** X5: whatever the representation, a board that [parse_board_any]
    accepts has exactly 16 characters, all of them letters [a]..[z], and
    is accepted unchanged when given back as a string. *)
Theorem parsed_board_is_canonical (board_obj : py_object) (board : list ascii) :
  parse_board_any board_obj = Ret board →
  length board = 16%nat ∧ Forall is_lower board ∧
  parse_board_any (PyStr board) = Ret board.
Proof.
  intros Hp. pose proof (parse_board_length _ _ Hp) as Hlen.
  pose proof (parse_board_lower _ _ Hp) as Hlow.
  split; [done|]. split; [done|]. by apply parse_lower_board.
Qed.

Lemma parsed_board_is_canonical_witness :
  length (lit "catsdogsxxxxxxxx") = 16%nat ∧ Forall is_lower (lit "catsdogsxxxxxxxx") ∧
  parse_board_any (PyStr (lit "catsdogsxxxxxxxx")) = Ret (lit "catsdogsxxxxxxxx").
Proof.
  apply (parsed_board_is_canonical
           (PySeq [PyStr (lit "Ca-Ts"); PyStr (lit "DOGS"); PyStr (lit "xx xx"); PyStr (lit "xxxx")])
           (lit "catsdogsxxxxxxxx")).
  reflexivity.
Defined.

(** X6: a board string is accepted exactly when it holds 16 letters, and
    the board is then its letters in order, lowercased; so two strings
    with the same letters up to case and to the characters in between
    are treated alike. *)
Theorem board_string_letters_only (s1 s2 : str) :
  parse_board_any (PyStr s1) =
    (if decide (letter_count s1 = 16%nat)
     then Ret (map tolower (filter (λ c, isalpha c = true) s1))
     else Throw (runtime_error "board string must contain 16 letters")) ∧
  (map tolower (filter (λ c, isalpha c = true) s1) =
   map tolower (filter (λ c, isalpha c = true) s2) →
   parse_board_any (PyStr s1) = parse_board_any (PyStr s2)).
Proof.
  split; [apply parse_string_closed|]. intros Heq.
  rewrite !parse_string_closed, Heq.
  assert (letter_count s1 = letter_count s2) as ->; [|done].
  unfold letter_count.
  rewrite <- (length_map tolower (filter _ s1)), <- (length_map tolower (filter _ s2)).
  by rewrite Heq.
Qed.

Lemma board_string_letters_only_witness :
  parse_board_any (PyStr (lit "CATS dogs / xxxx XXXX")) =
  parse_board_any (PyStr (lit "catsdogsxxxxxxxx")).
Proof.
  apply (board_string_letters_only (lit "CATS dogs / xxxx XXXX") (lit "catsdogsxxxxxxxx")).
  reflexivity.
Defined.


Example board_rows_of_unequal_length :
  parse_board_any (PySeq [PyStr (lit "catsdogs"); PyStr (lit "xxxxxxx"); PyStr (lit "");
                          PyStr (lit "x")])
  = Ret (lit "catsdogsxxxxxxxx").
Proof. reflexivity. Qed.



Example board_cells_with_digit :
  parse_board_any (PySeq (map cell_obj (lit "catsdogsxxxxxxx7")))
  = Throw (runtime_error "board list must contain 16 single letters").
Proof. reflexivity. Qed.

(** ** [dfs_all_words]: what a call adds *)

Lemma extends_snoc cur ch w : extends (cur ++ [ch]) w → extends cur w.
Proof.
  intros ([k ->] & Hlen & H3). rewrite !length_app in *. simpl in *.
  split; [|rewrite !length_app; simpl; lia].
  exists (ch :: k). by rewrite <- app_assoc.
Qed.

Lemma extends_last cur ch : (3 ≤ length (cur ++ [ch]))%nat → extends cur (cur ++ [ch]).
Proof.
  intros H3. split; [by exists [ch]|]. rewrite length_app in *. simpl in *. lia.
Qed.

Lemma dfs_extends fuel : ∀ cell m node board nbr trie cur out c o,
  dfs_all_words fuel cell m node board nbr trie (cur, out) = Ret (c, o) →
  out ⊆ o ∧ ∀ w, w ∈ o → w ∈ out ∨ extends cur w.
Proof.
  induction fuel as [|fuel IH]; intros cell m node board nbr trie cur out c o; [done|].
  rewrite dfs_unfold.
  vec_case (vec_at board cell) ch Hch.
  destruct (_ || _); [intros [= <- <-]; split; [set_solver | auto]|].
  vec_case (vec_at (Trie.t trie) node) nd Hnd.
  vec_case (vec_at (Trie.next nd) (char_val ch - 97)) nxt Hnxt.
  destruct (nxt =? -1); [intros [= <- <-]; split; [set_solver | auto]|].
  vec_case (vec_at (Trie.t trie) nxt) nd' Hnd'.
  vec_case (vec_at nbr cell) row Hrow.
  match goal with |- context [for_each row ?b (_, ?s)] =>
    set (out1 := s);
    pose proof (for_each_preserves
      (λ st : dfs_state, st.1 = cur ++ [ch] ∧ out1 ⊆ st.2 ∧
                         ∀ w, w ∈ st.2 → w ∈ out1 ∨ extends (cur ++ [ch]) w)
      row b) as Hloop;
    destruct (for_each row b (cur ++ [ch], out1)) as [[c1 o1]| | |] eqn:E end; try done.
  apply Hloop in E; [| |cbn [fst snd]; split; [done|split; [set_solver | auto]]].
  2:{ intros to [c2 o2] [c3 o3] (Hc2 & Hsub & Hext). cbn [fst snd] in *. subst c2.
      unfold visit.
      destruct (_ || _); [done|]. destruct (negb _); [by intros [= <- <-]|].
      intros Hrec. pose proof (dfs_restores_cur _ _ _ _ _ _ _ _ _ _ _ Hrec) as ->.
      apply IH in Hrec as [Hsub' Hext']. split; [done|]. split; [set_solver|].
      intros w [Hw|Hw]%Hext'; [by apply Hext | by right]. }
  destruct E as (Hc1 & Hsub & Hext). cbn [fst snd] in *. subst c1.
  rewrite res_bind_Ret. cbv beta iota. rewrite pop_back_snoc, res_bind_Ret.
  intros [= <- <-].
  assert (out ⊆ out1 ∧ ∀ w, w ∈ out1 → w ∈ out ∨ extends cur w) as [Hsub1 Hext1].
  { unfold out1. destruct (Trie.terminal nd' && (3 <=? sizeZ (cur ++ [ch]))) eqn:Hb.
    - apply andb_true_iff in Hb as [_ H3%Z.leb_le]. unfold sizeZ in H3.
      split; [set_solver|]. intros w [->%elem_of_singleton|?]%elem_of_union; [|by left].
      right. apply extends_last. lia.
    - split; [set_solver | auto]. }
  split; [set_solver|].
  intros w [Hw|Hw]%Hext; [by apply Hext1|]. right. by eapply extends_snoc.
Qed.

(** X11: whatever the board, the table and the trie, a call of
    [dfs_all_words] that returns has removed no word from [outWords], and
    every word it added extends the path string of its entry by at least
    one letter and has at least 3 letters. *)
Theorem dfs_only_adds_extensions
    (fuel : nat) (cell m node : Z) (board : list ascii) (nbr : list (list Z))
    (trie : Trie.Trie) (cur c : str) (out o : gset str) :
  dfs_all_words fuel cell m node board nbr trie (cur, out) = Ret (c, o) →
  out ⊆ o ∧ ∀ w, w ∈ o → w ∈ out ∨ extends cur w.
Proof.
  intros Hdfs. apply dfs_extends in Hdfs as [Hsub Hext].
  split; [exact Hsub | exact Hext].
Qed.

Lemma dfs_only_adds_extensions_witness :
  ({[lit "dog"]} : gset str) ⊆ {[lit "cat"; lit "dog"]} ∧
  ∀ w, w ∈ ({[lit "cat"; lit "dog"]} : gset str) → w ∈ ({[lit "dog"]} : gset str) ∨ extends [] w.
Proof.
  apply (dfs_only_adds_extensions 16 0 0 0 (lit "catsxxxxxxxxxxxx") build_neighbors_4x4
           example_trie [] [] {[lit "dog"]} {[lit "cat"; lit "dog"]}).
  vm_compute. reflexivity.
Defined.

(** ** [Dictionary::solve]: bounds, and what the result depends on *)

Lemma spells_letters board p w : spells board p w → ∀ c, c ∈ w → c ∈ board.
Proof.
  induction 1 as [|cell ch p w Hch _ IH]; intros c Hc; [by apply elem_of_nil in Hc|].
  apply elem_of_cons in Hc as [->|Hc]; [|by apply IH].
  apply list_elem_of_lookup. eauto.
Qed.

Lemma score_sum_bounds words :
  Forall (λ w : str, (3 ≤ length w ≤ 16)%nat) words →
  100 * sizeZ words <= score_sum words <= 5400 * sizeZ words.
Proof.
  induction 1 as [|w words [H3 H16] _ IH]; [done|].
  rewrite sizeZ_cons. simpl.
  pose proof (word_score_bounds _ H16).
  assert (100 <= word_score (Z.of_nat (length w))).
  { change 100 with (word_score 3). apply word_score_mono; unfold score_max_len; lia. }
  lia.
Qed.

(** X12: every word [solve] returns has between 3 and 16 letters, all of
    them letters of the board, and the total lies between 100 and 5400
    points a word. *)
Theorem solve_result_bounds
    (fs : str → option str) (dict_path content : str)
    (board_obj : py_object) (board : list ascii) (fuel : nat) :
  fs dict_path = Some content → sizeZ content < INT_MAX →
  parse_board_any board_obj = Ret board → (16 ≤ fuel)%nat →
  ∃ d words total,
    Dictionary.new fs dict_path = Ret d ∧
    Dictionary.solve fuel d board_obj = Ret (words, total) ∧
    (∀ w, w ∈ words → (3 ≤ length w ≤ 16)%nat ∧ ∀ c, c ∈ w → c ∈ board) ∧
    100 * sizeZ words <= total <= 5400 * sizeZ words.
Proof.
  intros Hfs Hsize Hparse Hfuel.
  destruct (Dictionary_new_spec fs dict_path content Hfs Hsize)
    as (d & Hnew & Hnbr & Hwf & _ & _).
  destruct (solve_spec fuel d board_obj board Hwf Hnbr Hparse Hfuel)
    as (words & Hsolve & _ & _ & Hwords).
  exists d, words, (score_sum words). split; [done|]. split; [done|].
  assert (∀ w, w ∈ words → (3 ≤ length w ≤ 16)%nat ∧ ∀ c, c ∈ w → c ∈ board) as Hb.
  { intros w (H3 & _ & Hs)%Hwords. split; [split; [done | by eapply spellable_length]|].
    destruct Hs as (p & _ & Hsp). by eapply spells_letters. }
  split; [done|]. apply score_sum_bounds. apply Forall_forall. intros w Hw. by apply Hb.
Qed.

Lemma solve_result_bounds_witness :
  ∃ d words total,
    Dictionary.new example_fs (lit "words.txt") = Ret d ∧
    Dictionary.solve 16 d (PyStr (lit "cdtsoaxxgxxxxxxx")) = Ret (words, total) ∧
    (∀ w, w ∈ words →
          (3 ≤ length w ≤ 16)%nat ∧ ∀ c, c ∈ w → c ∈ lit "cdtsoaxxgxxxxxxx") ∧
    100 * sizeZ words <= total <= 5400 * sizeZ words.
Proof.
  apply (solve_result_bounds example_fs (lit "words.txt") example_file
           (PyStr (lit "cdtsoaxxgxxxxxxx")) (lit "cdtsoaxxgxxxxxxx") 16).
  - reflexivity.
  - reflexivity.
  - reflexivity.
  - lia.
Defined.

Lemma dictionary_word_list content w :
  dictionary_word content w ↔ w ∈ accepted_words content.
Proof.
  unfold dictionary_word, accepted_words. rewrite list_elem_of_fmap.
  setoid_rewrite list_elem_of_filter. naive_solver.
Qed.

Lemma score_sum_submseteq l1 l2 :
  l1 ⊆+ l2 → Forall (λ w : str, 0 <= word_score (Z.of_nat (length w))) l2 →
  score_sum l1 <= score_sum l2.
Proof.
  induction 1 as [|x l1 l2 _ IH|x y l|x l1 l2 _ IH|l1 l2 l3 H12 IH12 H23 IH23];
    intros Hpos; simpl.
  - done.
  - apply Forall_cons in Hpos as [_ Hpos]. specialize (IH Hpos). lia.
  - lia.
  - apply Forall_cons in Hpos as [? Hpos]. specialize (IH Hpos). lia.
  - specialize (IH23 Hpos). etrans; [apply IH12|done].
    apply Forall_forall. intros w Hw. rewrite Forall_forall in Hpos.
    apply Hpos. by eapply elem_of_submseteq.
Qed.

(** Two results of [solve] with the same members are the same result. *)
Lemma solve_results_equal words1 words2 :
  NoDup words1 → NoDup words2 →
  StronglySorted before words1 → StronglySorted before words2 →
  (∀ w, w ∈ words1 ↔ w ∈ words2) → words1 = words2.
Proof.
  intros Hnd1 Hnd2 Hs1 Hs2 Hmem. apply before_sorted_unique; [done..|].
  by apply NoDup_Permutation.
Qed.

(** X13: a larger dictionary finds more: when every word of one word
    list is a word of another, then on the same board every word [solve]
    returns with the first is returned with the second, and the total is
    not smaller. *)
Theorem solve_monotone_in_dictionary
    (fs : str → option str) (path1 path2 content1 content2 : str)
    (board_obj : py_object) (board : list ascii) (fuel : nat) :
  fs path1 = Some content1 → sizeZ content1 < INT_MAX →
  fs path2 = Some content2 → sizeZ content2 < INT_MAX →
  (∀ w, dictionary_word content1 w → dictionary_word content2 w) →
  parse_board_any board_obj = Ret board → (16 ≤ fuel)%nat →
  ∃ d1 d2 words1 total1 words2 total2,
    Dictionary.new fs path1 = Ret d1 ∧ Dictionary.new fs path2 = Ret d2 ∧
    Dictionary.solve fuel d1 board_obj = Ret (words1, total1) ∧
    Dictionary.solve fuel d2 board_obj = Ret (words2, total2) ∧
    (∀ w, w ∈ words1 → w ∈ words2) ∧ total1 <= total2.
Proof.
  intros Hfs1 Hsize1 Hfs2 Hsize2 Hsub Hparse Hfuel.
  destruct (Dictionary_new_spec fs path1 content1 Hfs1 Hsize1)
    as (d1 & Hnew1 & Hnbr1 & Hwf1 & _ & Hc1).
  destruct (Dictionary_new_spec fs path2 content2 Hfs2 Hsize2)
    as (d2 & Hnew2 & Hnbr2 & Hwf2 & _ & Hc2).
  destruct (solve_spec fuel d1 board_obj board Hwf1 Hnbr1 Hparse Hfuel)
    as (words1 & Hsolve1 & Hnd1 & _ & Hwords1).
  destruct (solve_spec fuel d2 board_obj board Hwf2 Hnbr2 Hparse Hfuel)
    as (words2 & Hsolve2 & Hnd2 & _ & Hwords2).
  exists d1, d2, words1, (score_sum words1), words2, (score_sum words2).
  do 4 (split; [done|]).
  assert (∀ w, w ∈ words1 → w ∈ words2) as Hin.
  { intros w (H3 & Hw%Hc1%Hsub%Hc2 & Hs)%Hwords1. by apply Hwords2. }
  split; [done|]. apply score_sum_submseteq; [by apply NoDup_submseteq|].
  apply Forall_forall. intros w (_ & _ & Hs%spellable_length)%Hwords2.
  by apply word_score_bounds.
Qed.

Lemma solve_monotone_in_dictionary_witness :
  ∃ d1 d2 words1 total1 words2 total2,
    Dictionary.new (λ p, if decide (p = lit "small") then Some (lit "cat") else Some example_file)
      (lit "small") = Ret d1 ∧
    Dictionary.new (λ p, if decide (p = lit "small") then Some (lit "cat") else Some example_file)
      (lit "large") = Ret d2 ∧
    Dictionary.solve 16 d1 (PyStr (lit "catsxxxxxxxxxxxx")) = Ret (words1, total1) ∧
    Dictionary.solve 16 d2 (PyStr (lit "catsxxxxxxxxxxxx")) = Ret (words2, total2) ∧
    (∀ w, w ∈ words1 → w ∈ words2) ∧ total1 <= total2.
Proof.
  apply (solve_monotone_in_dictionary
           (λ p, if decide (p = lit "small") then Some (lit "cat") else Some example_file)
           (lit "small") (lit "large") (lit "cat") example_file
           (PyStr (lit "catsxxxxxxxxxxxx")) (lit "catsxxxxxxxxxxxx") 16).
  - reflexivity.
  - reflexivity.
  - reflexivity.
  - reflexivity.
  - intros w. rewrite !dictionary_word_list.
    assert (accepted_words (lit "cat") = [lit "cat"]) as -> by (by vm_compute).
    assert (accepted_words example_file = [lit "cat"; lit "cats"; lit "dog"]) as ->
      by (by vm_compute).
    set_solver.
  - reflexivity.
  - lia.
Defined.

(** X14: the result of [solve] depends on the word list only through the
    set of its accepted, lowercased words: neither the order of the
    tokens, nor their repetition, nor their case, nor the tokens that are
    skipped change the words returned or the total. *)
Theorem solve_depends_on_word_set
    (fs : str → option str) (path1 path2 content1 content2 : str)
    (board_obj : py_object) (board : list ascii) (fuel : nat) :
  fs path1 = Some content1 → sizeZ content1 < INT_MAX →
  fs path2 = Some content2 → sizeZ content2 < INT_MAX →
  (∀ w, dictionary_word content1 w ↔ dictionary_word content2 w) →
  parse_board_any board_obj = Ret board → (16 ≤ fuel)%nat →
  ∃ d1 d2 result,
    Dictionary.new fs path1 = Ret d1 ∧ Dictionary.new fs path2 = Ret d2 ∧
    Dictionary.solve fuel d1 board_obj = Ret result ∧
    Dictionary.solve fuel d2 board_obj = Ret result.
Proof.
  intros Hfs1 Hsize1 Hfs2 Hsize2 Heq Hparse Hfuel.
  destruct (Dictionary_new_spec fs path1 content1 Hfs1 Hsize1)
    as (d1 & Hnew1 & Hnbr1 & Hwf1 & _ & Hc1).
  destruct (Dictionary_new_spec fs path2 content2 Hfs2 Hsize2)
    as (d2 & Hnew2 & Hnbr2 & Hwf2 & _ & Hc2).
  destruct (solve_spec fuel d1 board_obj board Hwf1 Hnbr1 Hparse Hfuel)
    as (words1 & Hsolve1 & Hnd1 & Hs1 & Hwords1).
  destruct (solve_spec fuel d2 board_obj board Hwf2 Hnbr2 Hparse Hfuel)
    as (words2 & Hsolve2 & Hnd2 & Hs2 & Hwords2).
  assert (words1 = words2) as <-.
  { apply solve_results_equal; try done. intros w.
    rewrite Hwords1, Hwords2, Hc1, Hc2, Heq. done. }
  by exists d1, d2, (words1, score_sum words1).
Qed.

Lemma solve_depends_on_word_set_witness :
  ∃ d1 d2 result,
    Dictionary.new (λ p, if decide (p = lit "a") then Some (lit "dog 12 CAT cat") else Some (lit "Cat is DOG"))
      (lit "a") = Ret d1 ∧
    Dictionary.new (λ p, if decide (p = lit "a") then Some (lit "dog 12 CAT cat") else Some (lit "Cat is DOG"))
      (lit "b") = Ret d2 ∧
    Dictionary.solve 16 d1 (PyStr (lit "cdtsoaxxgxxxxxxx")) = Ret result ∧
    Dictionary.solve 16 d2 (PyStr (lit "cdtsoaxxgxxxxxxx")) = Ret result.
Proof.
  apply (solve_depends_on_word_set
           (λ p, if decide (p = lit "a") then Some (lit "dog 12 CAT cat") else Some (lit "Cat is DOG"))
           (lit "a") (lit "b") (lit "dog 12 CAT cat") (lit "Cat is DOG")
           (PyStr (lit "cdtsoaxxgxxxxxxx")) (lit "cdtsoaxxgxxxxxxx") 16).
  - reflexivity.
  - reflexivity.
  - reflexivity.
  - reflexivity.
  - intros w. rewrite !dictionary_word_list.
    assert (accepted_words (lit "dog 12 CAT cat") = [lit "dog"; lit "cat"; lit "cat"]) as ->
      by (by vm_compute).
    assert (accepted_words (lit "Cat is DOG") = [lit "cat"; lit "dog"]) as ->
      by (by vm_compute).
    set_solver.
  - reflexivity.
  - lia.
Defined.

(** ** The constructor of [Dictionary]: the only failure *)

(** X16: the constructor raises exactly when the file cannot be opened,
    with a message that names the path; on any file that opens it
    returns a dictionary with the adjacency table of the 4x4 grid and a
    trie that satisfies the invariant of [insert]. *)
Theorem constructor_fails_only_on_unreadable_file (fs : str → option str) (dict_path : str) :
  (∀ content, fs dict_path = Some content → sizeZ content < INT_MAX) →
  (fs dict_path = None →
   Dictionary.new fs dict_path =
     Throw (runtime_error
       (String.append "Failed to open dictionary file: "
          (String.string_of_list_ascii dict_path)))) ∧
  (is_Some (fs dict_path) →
   ∃ d, Dictionary.new fs dict_path = Ret d ∧
        Dictionary.nbr d = build_neighbors_4x4 ∧ trie_inv (Dictionary.trie d)).
Proof.
  intros Hsize. split.
  - intros Hnone. unfold Dictionary.new. by rewrite Hnone.
  - intros [content Hfs].
    destruct (Dictionary_new_spec fs dict_path content Hfs (Hsize _ Hfs))
      as (d & Hnew & Hnbr & Hwf & Hinj & _).
    exists d. split; [done|]. split; [done|]. by split.
Qed.

Lemma constructor_fails_only_on_unreadable_file_witness :
  (example_fs (lit "missing.txt") = None →
   Dictionary.new example_fs (lit "missing.txt") =
     Throw (runtime_error
       (String.append "Failed to open dictionary file: "
          (String.string_of_list_ascii (lit "missing.txt"))))) ∧
  (is_Some (example_fs (lit "missing.txt")) →
   ∃ d, Dictionary.new example_fs (lit "missing.txt") = Ret d ∧
        Dictionary.nbr d = build_neighbors_4x4 ∧ trie_inv (Dictionary.trie d)).
Proof.
  apply (constructor_fails_only_on_unreadable_file example_fs (lit "missing.txt")).
  intros content H. vm_compute in H. discriminate H.
Defined.

(** ** Generated boards are boards *)

Section generated_boards.
Variable mt19937 : Type.
Variable mt19937_seed : Z → mt19937.
Variable discrete_distribution : Type.
Variable dist_new : list Z → discrete_distribution.
Variable dist_call : discrete_distribution → mt19937 → Z * discrete_distribution * mt19937.
Variable dist_inv : discrete_distribution → Prop.
Hypothesis inv_new : dist_inv (dist_new freq).
Hypothesis inv_call : ∀ d rng, dist_inv d → dist_inv (dist_call d rng).1.2.
Hypothesis call_range : ∀ d rng, dist_inv d → 0 <= (dist_call d rng).1.1 < 26.
Hypothesis call_stateless : ∀ d1 d2 rng, dist_inv d1 → dist_inv d2 →
    (dist_call d1 rng).1.1 = (dist_call d2 rng).1.1 ∧
    (dist_call d1 rng).2 = (dist_call d2 rng).2.

(** X9: a board that [generate_board] returns is accepted unchanged by
    [parse_board_any], so [solve] does not reject it: with a dictionary
    built from a word list it returns a result. *)
Theorem generated_board_is_solvable
      (seed : Z) (tl : option discrete_distribution)
      (fs : str → option str) (dict_path content : str) (fuel : nat) :
    tl_ok dist_inv tl →
    fs dict_path = Some content → sizeZ content < INT_MAX → (16 ≤ fuel)%nat →
    let board := (generate_board_py mt19937_seed dist_new dist_call seed tl).1 in
    parse_board_any (PyStr board) = Ret board ∧
    ∃ d result, Dictionary.new fs dict_path = Ret d ∧
                Dictionary.solve fuel d (PyStr board) = Ret result.
Proof.
    intros Htl Hfs Hsize Hfuel board.
    assert (parse_board_any (PyStr board) = Ret board) as Hp.
    { subst board. unfold generate_board_py.
      destruct (generate_loop_spec mt19937 discrete_distribution dist_new dist_call dist_inv
                  inv_new inv_call call_range call_stateless
                  16 tl tl (mt19937_seed (to_uint32 seed)) [] Htl Htl)
        as (_ & _ & s & Hs & Hlen & Hall).
      rewrite Hs. simpl. by apply parse_lower_board. }
    split; [done|].
    destruct (Dictionary_new_spec fs dict_path content Hfs Hsize)
      as (d & Hnew & Hnbr & Hwf & _ & _).
    destruct (solve_spec fuel d (PyStr board) board Hwf Hnbr Hp Hfuel)
      as (words & Hsolve & _).
    by exists d, (words, score_sum words).
Qed.
End generated_boards.

Lemma generated_board_is_solvable_witness :
  parse_board_any
    (PyStr (generate_board_py MT.seed Sampler.new Sampler.call 42 None).1)
    = Ret (generate_board_py MT.seed Sampler.new Sampler.call 42 None).1 ∧
  ∃ d result,
    Dictionary.new example_fs (lit "words.txt") = Ret d ∧
    Dictionary.solve 16 d
      (PyStr (generate_board_py MT.seed Sampler.new Sampler.call 42 None).1) = Ret result.
Proof.
  apply (generated_board_is_solvable MT.state MT.seed Sampler.t Sampler.new Sampler.call
           (λ d, d = Sampler.new freq)) with (content := example_file).
  - reflexivity.
  - intros d rng ->. unfold Sampler.call.
    destruct (MT.draw rng) as [lo r1]. destruct (MT.draw r1) as [hi r2]. reflexivity.
  - intros d rng _. unfold Sampler.call.
    destruct (MT.draw rng) as [lo r1]. destruct (MT.draw r1) as [hi r2]. simpl.
    unfold sizeZ. lia.
  - intros d1 d2 rng -> ->. split; reflexivity.
  - exact I.
  - reflexivity.
  - reflexivity.
  - lia.
Defined.

(** ** Symmetries of the grid *)

Lemma grid_symmetry_of_check σ θ : grid_symmetry_check σ θ = true → grid_symmetry σ θ.
Proof.
  unfold grid_symmetry_check. rewrite forallb_forall. intros H a Ha.
  specialize (H a ltac:(apply list_elem_of_In, elem_of_seqZ; unfold in_grid in Ha; lia)).
  repeat (apply andb_true_iff in H as [H ?]).
  repeat match goal with
  | H : bool_decide _ = true |- _ => apply bool_decide_eq_true in H
  | H : (_ =? _) = true |- _ => apply Z.eqb_eq in H
  end.
  do 4 (split; [done|]). intros b Hb Hk.
  match goal with H : forallb _ _ = true |- _ => rewrite forallb_forall in H;
    specialize (H b ltac:(apply list_elem_of_In, elem_of_seqZ; unfold in_grid in Hb; lia)) end.
  unfold king_adjacent in *.
  match goal with H : implb _ _ = true |- _ => rewrite Hk in H; simpl in H;
    by apply andb_true_iff in H end.
Qed.

Lemma grid_symmetry_swap σ θ : grid_symmetry σ θ → grid_symmetry θ σ.
Proof.
  intros H a Ha. destruct (H a Ha) as (? & ? & ? & ? & Hadj).
  do 4 (split; [done|]). intros b Hb Hk. destruct (Hadj b Hb Hk). done.
Qed.

Lemma chain_fmap {A} (R : A → A → Prop) (f : A → A) (P : A → Prop) p :
  (∀ a b, P a → P b → R a b → R (f a) (f b)) → Forall P p →
  chain R p → chain R (f <$> p).
Proof.
  intros Hf. induction 1 as [|a p Ha Hp IH]; [done|]. simpl.
  intros [Hhd Htl]. split; [|by apply IH].
  destruct Hp as [|b p Hb _]; [done|]. simpl. by apply Hf.
Qed.

Lemma spellable_symmetry σ θ board board' w :
  grid_symmetry σ θ →
  (∀ i, in_grid i → board' !! Z.to_nat i = board !! Z.to_nat (σ i)) →
  spellable board w → spellable board' w.
Proof.
  intros Hsym Hb (p & (Hne & Hgrid & Hnd & Hchain) & Hsp).
  exists (θ <$> p). split; [split; [|split; [|split]]|].
  - by destruct p.
  - apply Forall_fmap. eapply Forall_impl; [done|]. intros a Ha. simpl.
    by destruct (Hsym a Ha) as (_ & _ & _ & ? & _).
  - apply NoDup_fmap_2_strong; [|done]. intros a b Ha Hb' Heq.
    rewrite Forall_forall in Hgrid.
    destruct (Hsym a (Hgrid a Ha)) as (_ & _ & <- & _).
    destruct (Hsym b (Hgrid b Hb')) as (_ & _ & <- & _). by rewrite Heq.
  - eapply (chain_fmap _ _ in_grid); [|done..]. intros a b Ha Hb' Hk.
    by destruct (Hsym a Ha) as (_ & _ & _ & _ & Hadj); destruct (Hadj b Hb' Hk).
  - unfold spells in *. apply Forall2_fmap_l. clear -Hsym Hb Hgrid Hsp.
    induction Hsp as [|a ch p w Hch _ IH]; [constructor|].
    apply Forall_cons in Hgrid as [Ha Hgrid]. constructor; [|by apply IH].
    simpl. destruct (Hsym a Ha) as (_ & _ & Hst & Hta & _).
    by rewrite Hb, Hst.
Qed.

(** X17: [solve] is invariant under the symmetries of the grid: when one
    board is the image of another under a bijection of the cells that
    keeps adjacency (the transposition, a reflection), [solve] returns
    the same words and the same total on both. *)
Theorem solve_invariant_under_grid_symmetry
    (σ θ : Z → Z) (fs : str → option str) (dict_path content : str)
    (obj obj' : py_object) (board board' : list ascii) (fuel : nat) :
  grid_symmetry σ θ →
  fs dict_path = Some content → sizeZ content < INT_MAX →
  parse_board_any obj = Ret board → parse_board_any obj' = Ret board' →
  (∀ i, in_grid i → board' !! Z.to_nat i = board !! Z.to_nat (σ i)) →
  (16 ≤ fuel)%nat →
  ∃ d result, Dictionary.new fs dict_path = Ret d ∧
              Dictionary.solve fuel d obj = Ret result ∧
              Dictionary.solve fuel d obj' = Ret result.
Proof.
  intros Hsym Hfs Hsize Hp Hp' Hb Hfuel.
  destruct (Dictionary_new_spec fs dict_path content Hfs Hsize)
    as (d & Hnew & Hnbr & Hwf & _ & _).
  destruct (solve_spec fuel d obj board Hwf Hnbr Hp Hfuel)
    as (words & Hsolve & Hnd & Hs & Hwords).
  destruct (solve_spec fuel d obj' board' Hwf Hnbr Hp' Hfuel)
    as (words' & Hsolve' & Hnd' & Hs' & Hwords').
  assert (words = words') as <-.
  { apply solve_results_equal; try done. intros w. rewrite Hwords, Hwords'.
    assert (spellable board w ↔ spellable board' w) as ->; [|done]. split.
    - by apply (spellable_symmetry σ θ).
    - apply (spellable_symmetry θ σ); [by apply grid_symmetry_swap|].
      intros i Hi. destruct (Hsym i Hi) as (_ & _ & Hst & Hti & _).
      by rewrite Hb, Hst. }
  by exists d, (words, score_sum words).
Qed.

Lemma solve_invariant_under_grid_symmetry_witness :
  ∃ d result, Dictionary.new example_fs (lit "words.txt") = Ret d ∧
              Dictionary.solve 16 d (PyStr (lit "catsxdogxxxxxxxx")) = Ret result ∧
              Dictionary.solve 16 d (PyStr (lit "cxxxadxxtoxxsgxx")) = Ret result.
Proof.
  apply (solve_invariant_under_grid_symmetry transpose_cell transpose_cell
           example_fs (lit "words.txt") example_file
           (PyStr (lit "catsxdogxxxxxxxx")) (PyStr (lit "cxxxadxxtoxxsgxx"))
           (lit "catsxdogxxxxxxxx") (lit "cxxxadxxtoxxsgxx") 16).
  - apply grid_symmetry_of_check. vm_compute. reflexivity.
  - reflexivity.
  - reflexivity.
  - reflexivity.
  - reflexivity.
  - intros i Hi.
    assert (Forall (λ i, lit "cxxxadxxtoxxsgxx" !! Z.to_nat i =
                         lit "catsxdogxxxxxxxx" !! Z.to_nat (transpose_cell i))
              (seqZ 0 16)) as HF.
    { apply (bool_decide_eq_true_1 (Forall _ _)). vm_compute. reflexivity. }
    rewrite Forall_forall in HF. apply HF, elem_of_seqZ. unfold in_grid in Hi. lia.
  - lia.
Defined.

Example grid_symmetries :
  grid_symmetry_check transpose_cell transpose_cell = true ∧
  grid_symmetry_check mirror_cell mirror_cell = true.
Proof. by vm_compute. Qed.

Example solve_transposed_and_mirrored :
  (d ← Dictionary.new example_fs (lit "words.txt");
   r1 ← Dictionary.solve 16 d (PyStr (lit "catsxdogxxxxxxxx"));
   r2 ← Dictionary.solve 16 d (PyStr (lit "cxxxadxxtoxxsgxx"));
   r3 ← Dictionary.solve 16 d (PyStr (lit "stacgodxxxxxxxxx"));
   Ret (r1, r2, r3))
  = Ret (([lit "cats"; lit "cat"; lit "dog"], 600),
         ([lit "cats"; lit "cat"; lit "dog"], 600),
         ([lit "cats"; lit "cat"; lit "dog"], 600)).
Proof. by vm_compute. Qed.
